(** * Synthy-Sound: the signal path of [main.cpp]

    A shallow embedding of the envelope generator, the oscillator bank, the
    three instruments, the audio callback and the key handling of the main
    loop, with the properties the specification states about them.

    Numbers.  The program computes on C++ [float]s.  Here a [float] is an
    exact rational ([Q]): the arithmetic is the real-number arithmetic the
    rounding of the machine approximates, a comparison is the comparison of
    the exact values, and rounding, infinities and NaN are outside the
    model.  Dividing by zero is outside the model too ([Q] makes it 0, the
    machine an infinity or a NaN), which is why the theorems that run a
    division through a time constant assume it positive.  Equality of
    amplitudes is [==], equality of rationals as numbers.

    The C library ([sinf], [asinf], [powf], [rand], the constants [M_PI] and
    [RAND_MAX]) is not part of the program; it is a parameter, [LibM]. *)

From Stdlib Require Import ZArith QArith Qround Qabs Lqa Lia List Bool.
Import ListNotations.

Local Open Scope Q_scope.

(** ** Scalars *)

Abbreviation float := Q (only parsing).

(** The comparisons of two floats, as booleans. *)
Definition fle (x y : float) : bool := Qle_bool x y.
Definition flt (x y : float) : bool := negb (Qle_bool y x).
Definition fgt (x y : float) : bool := flt y x.

(** [const int AMPLITUDE = 20000; const int SAMPLE_RATE = 44100;] *)
Definition AMPLITUDE : Z := 20000.
Definition SAMPLE_RATE : Z := 44100.

(** ** EnvelopeADSR *)

Record EnvelopeADSR : Type := mkEnvelopeADSR {
  attackTime : float;
  decayTime : float;
  releaseTime : float;
  sustainAmplitude : float;
  startAmplitude : float
}.

(** The constructor [EnvelopeADSR()]. *)
Definition EnvelopeADSR_new : EnvelopeADSR :=
  {| attackTime := 0.01;
     decayTime := 1.0;
     releaseTime := 1.0;
     sustainAmplitude := 0.0;
     startAmplitude := 1.0 |}.

(** [float getAmplitude(float t, float timeOn, float timeOff)]: the local
    variables of the C++ body become [let]s, an assignment under an [if]
    becomes the value of the conditional. *)
Definition getAmplitude (e : EnvelopeADSR) (t timeOn timeOff : float) : float :=
  let amplitude := 0.0 in
  let lifeTime := t - timeOn in
  let amplitude :=
    if fgt timeOn timeOff then
      (* ADS *)
      if fle lifeTime (attackTime e) then
        (lifeTime / attackTime e) * startAmplitude e
      else if fle lifeTime (attackTime e + decayTime e) then
        (lifeTime - attackTime e) / decayTime e
          * (sustainAmplitude e - startAmplitude e) + startAmplitude e
      else
        sustainAmplitude e
    else
      (* Release *)
      let lifeTime := timeOff - timeOn in
      let releaseAmplitude := 0.0 in
      let releaseAmplitude :=
        if fle lifeTime (attackTime e) then
          (lifeTime / attackTime e) * startAmplitude e
        else if fle lifeTime (attackTime e + decayTime e) then
          ((lifeTime - attackTime e) / decayTime e)
            * (sustainAmplitude e - startAmplitude e) + startAmplitude e
        else releaseAmplitude in
      let releaseAmplitude :=
        if fgt lifeTime (attackTime e + decayTime e) then sustainAmplitude e
        else releaseAmplitude in
      ((t - timeOff) / releaseTime e) * (0.0 - releaseAmplitude)
        + releaseAmplitude in
  if flt amplitude 0.0000 then 0.0 else amplitude.

(** The invariant of the data model: the three time constants are positive. *)
Definition positive_times (e : EnvelopeADSR) : Prop :=
  0 < attackTime e /\ 0 < decayTime e /\ 0 < releaseTime e.

(** The two amplitude levels lie in [0,1]. *)
Definition unit_levels (e : EnvelopeADSR) : Prop :=
  0 <= startAmplitude e <= 1 /\ 0 <= sustainAmplitude e <= 1.

(** *** The envelope as the specification words it

    The attack/decay/sustain formula of a held note at elapsed life [life]:
    a linear ramp to [startAmplitude] over [attackTime], a linear
    interpolation from [startAmplitude] to [sustainAmplitude] over
    [decayTime], then [sustainAmplitude]. *)
Definition heldFormula (e : EnvelopeADSR) (life : float) : float :=
  if fle life (attackTime e) then
    (life / attackTime e) * startAmplitude e
  else if fle life (attackTime e + decayTime e) then
    startAmplitude e
      + ((life - attackTime e) / decayTime e)
          * (sustainAmplitude e - startAmplitude e)
  else sustainAmplitude e.

(** A linear ramp from [from] down to 0 as [x] goes from 0 to 1. *)
Definition rampToZero (from x : float) : float := from * (1 - x).

(** Negative values are clamped to 0. *)
Definition clampNegative (a : float) : float := if flt a 0 then 0 else a.

(** The amplitude of a released note in the words of the specification. *)
Definition releasedAmplitude (e : EnvelopeADSR) (t timeOn timeOff : float) : float :=
  let relLife := timeOff - timeOn in
  let releaseStartAmplitude := heldFormula e relLife in
  clampNegative
    (rampToZero releaseStartAmplitude ((t - timeOff) / releaseTime e)).

(** ** The C library, and the state of [rand()]

    [rand_seq n] is the value of the [n]-th call of [rand()] of the run (the
    program never calls [srand], so the sequence is fixed); the state threaded
    through the code that may draw a number is the count of calls made. *)

Record LibM : Type := mkLibM {
  sinf : float -> float;
  asinf : float -> float;
  powf : float -> float -> float;
  M_PI : float;
  RAND_MAX : Z;
  rand_seq : nat -> Z
}.

Definition Rand (A : Type) : Type := nat -> A * nat.

Definition ret {A : Type} (a : A) : Rand A := fun n => (a, n).

Definition bind {A B : Type} (c : Rand A) (k : A -> Rand B) : Rand B :=
  fun n => let (a, n') := c n in k a n'.

Notation "x <- c ;; k" := (bind c (fun x => k))
  (at level 61, c at next level, right associativity).
Notation "' pat <- c ;; k" := (bind c (fun x => match x with pat => k end))
  (at level 61, pat pattern, c at next level, right associativity).

Definition rand (L : LibM) : Rand Z := fun n => (rand_seq L n, S n).

(** ** The oscillator bank *)

(** [#define H2W(hertz) (hertz)*2*(float)M_PI] *)
Definition H2W (L : LibM) (hertz : float) : float := hertz * 2 * M_PI L.

Inductive WaveType : Type := SINE | SQUARE | TRIANGLE | SAW | NOISE.

(** [for (int i=1; i<40; ++i) answer += sinf((float)i * freq) / (float)i;]
    from the state [(i, answer)], with [fuel] bounding the iterations. *)
Fixpoint saw_loop (L : LibM) (freq : float) (fuel : nat) (i : Z) (answer : float)
  : float :=
  match fuel with
  | O => answer
  | S fuel' =>
      if (i <? 40)%Z then
        saw_loop L freq fuel' (i + 1)%Z
          (answer + sinf L (inject_Z i * freq) / inject_Z i)
      else answer
  end.

(** [float getWave(WaveType wave_type, float t, float hertz,
                   float fmAmplitude=0, float fmHertz=0)] *)
Definition getWave (L : LibM) (wave_type : WaveType)
    (t hertz fmAmplitude fmHertz : float) : Rand float :=
  let answer := 0.0 in
  let freq := H2W L hertz * t + fmAmplitude * hertz * sinf L (H2W L fmHertz * t) in
  match wave_type with
  | SINE => ret (sinf L freq)
  | SQUARE => ret (if fgt (sinf L freq) 0 then 1 else -1)
  | TRIANGLE => ret (asinf L (sinf L freq) * 2.0 / M_PI L)
  | SAW =>
      let answer := saw_loop L freq 40 1 0.0 in
      ret (answer * 2.0 / M_PI L)
  | NOISE =>
      r <- rand L ;;
      ret (2.0 * inject_Z r / inject_Z (RAND_MAX L) - 1.0)
  end.

(** ** Instruments

    [class Instrument] has two fields and one pure virtual method.  The method
    of an object is the field [vsound], which receives the fields of [this];
    [sound] is the virtual call. *)

Record Instrument : Type := mkInstrument {
  volume : float;
  envelope : EnvelopeADSR;
  vsound : float -> EnvelopeADSR ->
           float -> float -> float -> float -> Rand (float * bool)
}.

Definition sound (i : Instrument) (hertz t timeOn timeOff : float)
  : Rand (float * bool) :=
  vsound i (volume i) (envelope i) hertz t timeOn timeOff.

(** [Bell::sound] *)
Definition Bell_sound (L : LibM) (volume : float) (envelope : EnvelopeADSR)
    (hertz t timeOn timeOff : float) : Rand (float * bool) :=
  let amplitude := getAmplitude envelope t timeOn timeOff in
  let noteIsAlive := fgt amplitude 0.0 in
  w1 <- getWave L SINE t (hertz * 2.0) 0.001 5.0 ;;
  w2 <- getWave L SINE t (hertz * 3.0) 0 0 ;;
  w3 <- getWave L SINE t (hertz * 4.0) 0 0 ;;
  ret (volume * amplitude * (1.0 * w1 + 0.5 * w2 + 0.25 * w3), noteIsAlive).

(** [Harmonica::sound] *)
Definition Harmonica_sound (L : LibM) (volume : float) (envelope : EnvelopeADSR)
    (hertz t timeOn timeOff : float) : Rand (float * bool) :=
  let amplitude := getAmplitude envelope t timeOn timeOff in
  let noteIsAlive := fgt amplitude 0.0 in
  w1 <- getWave L SQUARE t hertz 0.001 5.0 ;;
  w2 <- getWave L SQUARE t (hertz * 1.5) 0 0 ;;
  w3 <- getWave L SQUARE t (hertz * 2.0) 0 0 ;;
  w4 <- getWave L NOISE t 0.0 0 0 ;;
  ret (volume * amplitude * (1.0 * w1 + 0.5 * w2 + 0.25 * w3 + 0.05 * w4),
       noteIsAlive).

(** [PureSaw::sound] *)
Definition PureSaw_sound (L : LibM) (volume : float) (envelope : EnvelopeADSR)
    (hertz t timeOn timeOff : float) : Rand (float * bool) :=
  let amplitude := getAmplitude envelope t timeOn timeOff in
  let noteIsAlive := fgt amplitude 0.0 in
  w <- getWave L SAW t hertz 0.001 5.0 ;;
  ret (volume * amplitude * w, noteIsAlive).

(** The envelopes the three constructors leave in the object. *)
Definition Bell_envelope : EnvelopeADSR :=
  {| attackTime := 0.01; decayTime := 1.0; releaseTime := 1.0;
     sustainAmplitude := 0.0; startAmplitude := 1.0 |}.

Definition Harmonica_envelope : EnvelopeADSR :=
  {| attackTime := 0.1; decayTime := 0.01; releaseTime := 0.1;
     sustainAmplitude := 0.8; startAmplitude := 1.0 |}.

Definition PureSaw_envelope : EnvelopeADSR :=
  {| attackTime := 0.01; decayTime := 0.01; releaseTime := 0.01;
     sustainAmplitude := 0.8; startAmplitude := 1.0 |}.

(** [Bell()], [Harmonica()], [PureSaw()]: [Instrument()] sets the volume to
    1.0, [PureSaw()] lowers it to 0.8. *)
Definition Bell (L : LibM) : Instrument :=
  {| volume := 1.0; envelope := Bell_envelope; vsound := Bell_sound L |}.

Definition Harmonica (L : LibM) : Instrument :=
  {| volume := 1.0; envelope := Harmonica_envelope; vsound := Harmonica_sound L |}.

Definition PureSaw (L : LibM) : Instrument :=
  {| volume := 0.8; envelope := PureSaw_envelope; vsound := PureSaw_sound L |}.

(** ** Notes and the data of the audio callback *)

Record Note : Type := mkNote {
  id : Z;
  freq : float;
  timeOn : float;
  timeOff : float;
  active : bool;
  instrument : Instrument
}.

Definition set_timeOn (n : Note) (v : float) : Note :=
  {| id := id n; freq := freq n; timeOn := v; timeOff := timeOff n;
     active := active n; instrument := instrument n |}.

Definition set_timeOff (n : Note) (v : float) : Note :=
  {| id := id n; freq := freq n; timeOn := timeOn n; timeOff := v;
     active := active n; instrument := instrument n |}.

Definition set_active (n : Note) (v : bool) : Note :=
  {| id := id n; freq := freq n; timeOn := timeOn n; timeOff := timeOff n;
     active := v; instrument := instrument n |}.

Record AudioCustomData : Type := mkAudioCustomData {
  sample_nr : Z;
  notes : list Note
}.

(** [AudioCustomData custom_data;] *)
Definition AudioCustomData_new : AudioCustomData :=
  {| sample_nr := 0; notes := [] |}.

(** ** Machine integers

    [int] is 32 bits and [Sint16] 16 bits, both two's complement.  Storing
    an [int] into a [Sint16] keeps its low 16 bits.  An [int] that overflows
    and a float converted to [Sint16] out of its range are undefined in
    C++; here they wrap, as on the usual targets.  The theorems on the clock
    assume it in range, and a scaled result leaves the range of [Sint16]
    only when the result of [sound] exceeds 6.5 in size. *)

Definition wrap_signed (bits : Z) (z : Z) : Z :=
  ((z + 2 ^ (bits - 1)) mod 2 ^ bits - 2 ^ (bits - 1))%Z.

Definition int_wrap (z : Z) : Z := wrap_signed 32 z.
Definition Sint16_wrap (z : Z) : Z := wrap_signed 16 z.

(** The integer part of a float, rounded towards zero. *)
Definition ftrunc (x : float) : Z := Z.quot (Qnum x) (Zpos (Qden x)).

(** [(Sint16)(x)] for a float [x]. *)
Definition Sint16_of_float (x : float) : Z := Sint16_wrap (ftrunc x).

(** [a += b] on a [Sint16] lvalue: the sum is taken in [int] and stored back. *)
Definition Sint16_add (a b : Z) : Z := Sint16_wrap (a + b).

(** ** audio_callback *)

(** The inner loop, [for (Note &note : data->notes)], at one sample: it runs
    over the notes left to visit with the value of [buffer[i]] so far and
    gives the final [buffer[i]] and the notes with their [active] flags
    rewritten. *)
Fixpoint mix_notes (time : float) (ns : list Note) (buffer_i : Z)
  : Rand (Z * list Note) :=
  match ns with
  | [] => ret (buffer_i, [])
  | note :: rest =>
      ' (result, alive) <-
        sound (instrument note) (freq note) time (timeOn note) (timeOff note) ;;
      let note := set_active note alive in
      let buffer_i :=
        Sint16_add buffer_i
          (Sint16_of_float (inject_Z (Z.quot AMPLITUDE 4) * result)) in
      ' (buffer_i, rest) <- mix_notes time rest buffer_i ;;
      ret (buffer_i, note :: rest)
  end.

(** The first loop, [for (int i = 0; i < length; ++i, data->sample_nr++)],
    with [todo] samples left to write: the samples written and the data. *)
Fixpoint render_loop (todo : nat) (data : AudioCustomData)
  : Rand (list Z * AudioCustomData) :=
  match todo with
  | O => ret ([], data)
  | S todo' =>
      let time := inject_Z (sample_nr data) / inject_Z SAMPLE_RATE in
      ' (buffer_i, ns) <- mix_notes time (notes data) 0%Z ;;
      let data :=
        {| sample_nr := int_wrap (sample_nr data + 1); notes := ns |} in
      ' (buffer, data) <- render_loop todo' data ;;
      ret (buffer_i :: buffer, data)
  end.

(** The second loop, [for (int i = 0; i < length; data->sample_nr++)
    buffer[i++] = (Sint16)(0.0f);], which overwrites the samples. *)
Fixpoint silence_loop (todo : nat) (data : AudioCustomData)
  : list Z * AudioCustomData :=
  match todo with
  | O => ([], data)
  | S todo' =>
      let data :=
        {| sample_nr := int_wrap (sample_nr data + 1); notes := notes data |} in
      let (buffer, data) := silence_loop todo' data in
      (Sint16_of_float 0.0 :: buffer, data)
  end.

(** [void audio_callback(void *user_data, Uint8 *raw_buffer, int bytes)]: the
    result is the [bytes/2] samples written at the start of [raw_buffer] and
    the data the callback leaves. *)
Definition audio_callback (data : AudioCustomData) (bytes : Z)
  : Rand (list Z * AudioCustomData) :=
  let length := Z.quot bytes 2 in
  ' (buffer, data) <- render_loop (Z.to_nat length) data ;;
  match notes data with
  | [] => ret (silence_loop (Z.to_nat length) data)
  | _ :: _ => ret (buffer, data)
  end.

(** ** The keyboard *)

(** The scancodes the key map knows, and the others by their number. *)
Inductive SDL_Scancode : Type :=
  | SDL_SCANCODE_Z | SDL_SCANCODE_S | SDL_SCANCODE_X | SDL_SCANCODE_C
  | SDL_SCANCODE_F | SDL_SCANCODE_V | SDL_SCANCODE_G | SDL_SCANCODE_B
  | SDL_SCANCODE_N | SDL_SCANCODE_J | SDL_SCANCODE_M | SDL_SCANCODE_K
  | SDL_SCANCODE_COMMA
  | SDL_SCANCODE_other (code : Z).

Definition scancode_number (s : SDL_Scancode) : Z :=
  match s with
  | SDL_SCANCODE_Z => 29 | SDL_SCANCODE_S => 22 | SDL_SCANCODE_X => 27
  | SDL_SCANCODE_C => 6 | SDL_SCANCODE_F => 9 | SDL_SCANCODE_V => 25
  | SDL_SCANCODE_G => 10 | SDL_SCANCODE_B => 5 | SDL_SCANCODE_N => 17
  | SDL_SCANCODE_J => 13 | SDL_SCANCODE_M => 16 | SDL_SCANCODE_K => 14
  | SDL_SCANCODE_COMMA => 54
  | SDL_SCANCODE_other code => code
  end.

Definition scancode_eqb (a b : SDL_Scancode) : bool :=
  (scancode_number a =? scancode_number b)%Z.

(** [std::map<SDL_Scancode, Note>] as an association list: [m[k] = v] and
    [m.find(k)]. *)
Definition KeyMap : Type := list (SDL_Scancode * Note).

Fixpoint map_assign (m : KeyMap) (k : SDL_Scancode) (v : Note) : KeyMap :=
  match m with
  | [] => [(k, v)]
  | (k', v') :: m' =>
      if scancode_eqb k k' then (k, v) :: m' else (k', v') :: map_assign m' k v
  end.

Fixpoint map_find (m : KeyMap) (k : SDL_Scancode) : option Note :=
  match m with
  | [] => None
  | (k', v') :: m' => if scancode_eqb k k' then Some v' else map_find m' k
  end.

(** [Note()], with the instrument the key map is built for in the place of
    the null pointer. *)
Definition Note_new (i : Instrument) : Note :=
  {| id := 0; freq := 0.0; timeOn := 0.0; timeOff := 0.0; active := false;
     instrument := i |}.

(** The keys of [initializeKeyMap] in the order of the assignments, each with
    the numerator of its exponent: A3 to A4, one semitone a key. *)
Definition key_table : list (SDL_Scancode * Z) :=
  [ (SDL_SCANCODE_Z, -12); (SDL_SCANCODE_S, -11); (SDL_SCANCODE_X, -10);
    (SDL_SCANCODE_C, -9); (SDL_SCANCODE_F, -8); (SDL_SCANCODE_V, -7);
    (SDL_SCANCODE_G, -6); (SDL_SCANCODE_B, -5); (SDL_SCANCODE_N, -4);
    (SDL_SCANCODE_J, -3); (SDL_SCANCODE_M, -2); (SDL_SCANCODE_K, -1);
    (SDL_SCANCODE_COMMA, 0) ]%Z.

(** One block of [initializeKeyMap]: [note.id] is [note_id] (0 in the first
    block, incremented before each of the others),
    [note.freq = 440.0f * powf(2, k.f/12); key_to_note[sc] = note;]. *)
Fixpoint assign_keys (L : LibM) (table : list (SDL_Scancode * Z))
    (note_id : Z) (note : Note) (key_to_note : KeyMap) : KeyMap :=
  match table with
  | [] => key_to_note
  | (sc, k) :: table' =>
      let note :=
        {| id := note_id;
           freq := 440.0 * powf L 2 (inject_Z k / 12);
           timeOn := timeOn note; timeOff := timeOff note;
           active := active note; instrument := instrument note |} in
      assign_keys L table' (note_id + 1)%Z note (map_assign key_to_note sc note)
  end.

(** [void initializeKeyMap(std::map<SDL_Scancode, Note> &key_to_note,
                           Instrument *instrument)] *)
Definition initializeKeyMap (L : LibM) (key_to_note : KeyMap) (i : Instrument)
  : KeyMap :=
  assign_keys L key_table 0%Z (Note_new i) key_to_note.

(** ** The main loop *)

(** The events the loop tells apart. *)
Inductive SDL_Event : Type :=
  | SDL_QUIT
  | SDL_KEYDOWN (scancode : SDL_Scancode) (repeat : bool)
  | SDL_KEYUP (scancode : SDL_Scancode)
  | SDL_other_event.

(** [for (Note &n : custom_data.notes) if (n.id == note_id) n.timeOff = sound_time;] *)
Fixpoint release_notes (note_id : Z) (sound_time : float) (ns : list Note)
  : list Note :=
  match ns with
  | [] => []
  | n :: rest =>
      (if (id n =? note_id)%Z then set_timeOff n sound_time else n)
        :: release_notes note_id sound_time rest
  end.

(** The body of [while(SDL_PollEvent(&event))] on one event: the data and
    the flag [quit]. *)
Definition handle_event (key_to_note : KeyMap)
    (st : AudioCustomData * bool) (event : SDL_Event) : AudioCustomData * bool :=
  let (custom_data, quit) := st in
  let sound_time :=
    inject_Z (sample_nr custom_data) / inject_Z SAMPLE_RATE in
  match event with
  | SDL_QUIT => (custom_data, true)
  | SDL_KEYDOWN scancode false =>
      match map_find key_to_note scancode with
      | Some note =>
          let note := set_timeOn note sound_time in
          let note := set_active note true in
          ({| sample_nr := sample_nr custom_data;
              notes := notes custom_data ++ [note] |}, quit)
      | None => (custom_data, quit)
      end
  | SDL_KEYUP scancode =>
      match map_find key_to_note scancode with
      | Some found =>
          let note_id := id found in
          ({| sample_nr := sample_nr custom_data;
              notes := release_notes note_id sound_time (notes custom_data) |},
           quit)
      | None => (custom_data, quit)
      end
  | _ => (custom_data, quit)
  end.

(** [notes.erase(std::remove_if(..., [](const Note& n){ return !n.active;}), ...)] *)
Definition remove_inactive (ns : list Note) : list Note :=
  filter (fun n => negb (negb (active n))) ns.

(** One turn of [while(!quit)] with the audio device locked: the pending
    events are handled in order, then the notes that are not active go. *)
Definition main_iteration (key_to_note : KeyMap) (events : list SDL_Event)
    (st : AudioCustomData * bool) : AudioCustomData * bool :=
  let (custom_data, quit) := fold_left (handle_event key_to_note) events st in
  ({| sample_nr := sample_nr custom_data;
      notes := remove_inactive (notes custom_data) |}, quit).

(** What happens to the shared data in a run: a turn of the main loop with
    its pending events, or a call of the audio callback between two turns
    (the lock keeps the callback out of a turn). *)
Inductive Step : Type :=
  | Turn (events : list SDL_Event)
  | Audio (bytes : Z).

Record Run : Type := mkRun {
  custom_data : AudioCustomData;
  quit : bool;
  rand_calls : nat
}.

(** The state [main] enters its loop with. *)
Definition Run_start : Run :=
  {| custom_data := AudioCustomData_new; quit := false; rand_calls := O |}.

(** One step of a run; nothing happens once [quit] is set (the loop has
    ended and the device is closed). *)
Definition run_step (key_to_note : KeyMap) (r : Run) (s : Step) : Run :=
  if quit r then r else
  match s with
  | Turn events =>
      let (d, q) := main_iteration key_to_note events (custom_data r, quit r) in
      {| custom_data := d; quit := q; rand_calls := rand_calls r |}
  | Audio bytes =>
      let (out, n) := audio_callback (custom_data r) bytes (rand_calls r) in
      {| custom_data := snd out; quit := quit r; rand_calls := n |}
  end.

Definition run_steps (key_to_note : KeyMap) (steps : list Step) (r : Run) : Run :=
  fold_left (run_step key_to_note) steps r.

(** [main]: the key map is built for the bell, and the loop starts on the
    empty data. *)
Definition main_key_to_note (L : LibM) : KeyMap :=
  initializeKeyMap L [] (Bell L).

Definition main_run (L : LibM) (steps : list Step) : Run :=
  run_steps (main_key_to_note L) steps Run_start.

(** ** The oscillator and the mix as the specification words them *)

(** The phase of the oscillator: [2 pi freq t], modulated by
    [fmAmplitude * freq * sin(2 pi fmHertz t)]. *)
Definition phase (L : LibM) (t freq fmAmplitude fmHertz : float) : float :=
  freq * 2 * M_PI L * t
  + fmAmplitude * freq * sinf L (fmHertz * 2 * M_PI L * t).

(** The sum of [sin(i * ph) / i] for [i = first, ..., first + count - 1]. *)
Fixpoint harmonic_sum (L : LibM) (ph : float) (first : Z) (count : nat) : float :=
  match count with
  | O => 0
  | S count' =>
      sinf L (inject_Z first * ph) / inject_Z first
      + harmonic_sum L ph (first + 1)%Z count'
  end.

(** The shape of each waveform at a phase; [r] is the number [rand()] gives,
    which only the noise reads. *)
Definition shape (L : LibM) (wave_type : WaveType) (ph : float) (r : Z) : float :=
  match wave_type with
  | SINE => sinf L ph
  | SQUARE => if fgt (sinf L ph) 0 then 1 else -1
  | TRIANGLE => (2 / M_PI L) * asinf L (sinf L ph)
  | SAW => (2 / M_PI L) * harmonic_sum L ph 1 39
  | NOISE => 2 * (inject_Z r / inject_Z (RAND_MAX L)) - 1
  end.

(** The values [sound] returns for the notes of the registry at one sample,
    in the order the inner loop calls it. *)
Fixpoint sound_results (time : float) (ns : list Note) : Rand (list float) :=
  match ns with
  | [] => ret []
  | note :: rest =>
      ' (result, _) <-
        sound (instrument note) (freq note) time (timeOn note) (timeOff note) ;;
      results <- sound_results time rest ;;
      ret (result :: results)
  end.

Definition Qsum (l : list float) : float := fold_right Qplus 0 l.
Definition Zsum (l : list Z) : Z := fold_right Z.add 0%Z l.

(** The headroom factor: the peak amplitude divided by 4, [AMPLITUDE/4]. *)
Definition headroom : float := inject_Z (Z.quot AMPLITUDE 4).

(** One sample, mixed in floats: the sum of the results scaled once, then
    converted. *)
Definition mixed_then_converted (results : list float) : Z :=
  Sint16_of_float (headroom * Qsum results).

(** One sample, mixed in 16-bit integers: each result scaled and converted,
    the converted values added with wrap-around. *)
Definition converted_then_mixed (results : list float) : Z :=
  Sint16_wrap (Zsum (map (fun r => Sint16_of_float (headroom * r)) results)).

(** An instrument whose [sound] is the constant [level], always alive. *)
Definition Steady (level : float) : Instrument :=
  {| volume := 1.0; envelope := EnvelopeADSR_new;
     vsound := fun _ _ _ _ _ _ => ret (level, true) |}.

(** A note is held when [timeOn > timeOff], released otherwise. *)
Definition held (n : Note) : Prop := timeOff n < timeOn n.
Definition released (n : Note) : Prop := timeOn n <= timeOff n.

(** "A key-up never overwrites the [timeOff] of a released note": in every
    run of [main], whatever key goes up next, each note of the registry that
    is already released is there afterwards with the same [timeOff]. *)
Definition released_notes_keep_timeOff (L : LibM) : Prop :=
  forall (steps : list Step) (scancode : SDL_Scancode) (k : nat) (n : Note),
    let r := main_run L steps in
    let after :=
      fst (handle_event (main_key_to_note L) (custom_data r, quit r)
             (SDL_KEYUP scancode)) in
    nth_error (notes (custom_data r)) k = Some n ->
    released n ->
    exists n', nth_error (notes after) k = Some n' /\ timeOff n' == timeOff n.

(** Two notes that differ at most in their flag [active]. *)
Definition same_but_active (a b : Note) : Prop :=
  id a = id b /\ freq a = freq b /\ timeOn a = timeOn b /\
  timeOff a = timeOff b /\ instrument a = instrument b.

(** ** Scenarios *)

(** Two notes in the registry, each of an instrument that sounds at the
    level 0.00012: scaled by the headroom, 0.6 each and 1.2 together. *)
Definition quiet_note : Note :=
  {| id := 0; freq := 440.0; timeOn := 0.0; timeOff := 0.0; active := true;
     instrument := Steady 0.00012 |}.

Definition quiet_pair : AudioCustomData :=
  {| sample_nr := 0; notes := [quiet_note; quiet_note] |}.

(** The key Z pressed, released and pressed again, each in a turn of its
    own, with one call of the audio callback for 512 samples before each
    turn. *)
Definition retrigger_steps : list Step :=
  [ Audio 1024; Turn [SDL_KEYDOWN SDL_SCANCODE_Z false];
    Audio 1024; Turn [SDL_KEYUP SDL_SCANCODE_Z];
    Audio 1024; Turn [SDL_KEYDOWN SDL_SCANCODE_Z false];
    Audio 1024 ].

(** ** What the properties of the instruments and of the mix speak of *)

(** What the program relies on from the C library: a sine within [-1,1], an
    arcsine within [-pi/2, pi/2] for a positive [M_PI], and numbers of
    [rand()] between 0 and a positive [RAND_MAX]. *)
Definition sane_libm (L : LibM) : Prop :=
  (forall x, -1 <= sinf L x <= 1) /\
  0 < M_PI L /\
  (forall x, - M_PI L <= 2 * asinf L x <= M_PI L) /\
  (0 < RAND_MAX L)%Z /\
  (forall n, 0 <= rand_seq L n <= RAND_MAX L)%Z.

(** A stand-in for the C library, to run the program on: [2x/(1+x^2)] for
    the sine, scaled by [pi/2] for the arcsine, a linear congruential
    generator for [rand()]. *)
Definition toy_libm : LibM :=
  {| sinf := fun x => 2 * x / (1 + x * x);
     asinf := fun x => (355 # 226) * (2 * x / (1 + x * x));
     powf := fun b e => 1 + e * (b - 1);
     M_PI := 355 # 113;
     RAND_MAX := 2147483647;
     rand_seq := fun n => ((1103515245 * Z.of_nat n + 12345) mod 2147483648)%Z |}.

(** The three instruments of the program. *)
Definition stock_instrument (L : LibM) (i : Instrument) : Prop :=
  i = Bell L \/ i = Harmonica L \/ i = PureSaw L.

(** Whether the envelope of the instrument of a note is above 0 at [time]. *)
Definition envelope_alive (m : Note) (time : float) : bool :=
  fgt (getAmplitude (envelope (instrument m)) time (timeOn m) (timeOff m)) 0.0.

(** An instrument reports a note alive exactly when its envelope is above
    0, and sounds 0 for a note it reports dead. *)
Definition alive_means_audible (i : Instrument) : Prop :=
  forall (hertz t timeOn timeOff : float) (n : nat),
    let out := fst (sound i hertz t timeOn timeOff n) in
    (snd out = true <-> 0 < getAmplitude (envelope i) t timeOn timeOff) /\
    (snd out = false -> fst out == 0).

(** Three notes of the bell of [toy_libm], the first one released. *)
Definition toy_chord : AudioCustomData :=
  {| sample_nr := 44100;
     notes :=
       [ {| id := 0; freq := 220; timeOn := 0.5; timeOff := 0.9;
            active := true; instrument := Bell toy_libm |};
         {| id := 4; freq := 277; timeOn := 0.75; timeOff := 0.0;
            active := true; instrument := Bell toy_libm |};
         {| id := 7; freq := 330; timeOn := 0.99; timeOff := 0.0;
            active := true; instrument := PureSaw toy_libm |} ] |}.

(** The notes with their flags [active] set from their envelopes at [time]. *)
Definition refresh_active (time : float) (ns : list Note) : list Note :=
  map (fun m => set_active m (envelope_alive m time)) ns.

(** The instruments of the program that read no noise. *)
Definition noiseless_instrument (L : LibM) (i : Instrument) : Prop :=
  i = Bell L \/ i = PureSaw L.

(** ** What the properties of the keys and of the main loop speak of *)

(** The number of the key of each note id of [initializeKeyMap]. *)
Definition key_of_id (note_id : Z) : option Z :=
  option_map (fun entry => scancode_number (fst entry))
    (nth_error key_table (Z.to_nat note_id)).

(** The current time as the main loop reads it off the sample clock. *)
Definition sound_time_of (data : AudioCustomData) : float :=
  inject_Z (sample_nr data) / inject_Z SAMPLE_RATE.

(** Two notes that differ at most in their [timeOff]. *)
Definition same_but_timeOff (a b : Note) : Prop :=
  id a = id b /\ freq a = freq b /\ timeOn a = timeOn b /\
  active a = active b /\ instrument a = instrument b.

(** The events that find no mapped key to act on: the events that are
    neither a key nor a quit, the auto-repeat of a key held down, and the
    keys that are not in the map. *)
Definition idle_event (key_to_note : KeyMap) (event : SDL_Event) : Prop :=
  match event with
  | SDL_QUIT => False
  | SDL_KEYDOWN scancode repeat =>
      repeat = true \/ map_find key_to_note scancode = None
  | SDL_KEYUP scancode => map_find key_to_note scancode = None
  | SDL_other_event => True
  end.

(** The samples the audio callback is asked for along a run. *)
Fixpoint samples_asked (steps : list Step) : Z :=
  match steps with
  | [] => 0
  | Turn _ :: rest => samples_asked rest
  | Audio bytes :: rest => (Z.max 0 (Z.quot bytes 2) + samples_asked rest)%Z
  end.

(** The times of a note are not after the current time. *)
Definition times_in_the_past (data : AudioCustomData) (m : Note) : Prop :=
  0 <= timeOn m <= sound_time_of data /\ 0 <= timeOff m <= sound_time_of data.

(** The note the key of the comma finds when the map is built for the
    bell of [toy_libm]. *)
Definition comma_template : Note :=
  {| id := 12; freq := 440.0 * powf toy_libm 2 (inject_Z 0 / 12);
     timeOn := 0.0; timeOff := 0.0; active := false;
     instrument := Bell toy_libm |}.

(** What holds of the data all along a run of [main]: the clock is not
    negative, and every note is a note of the bell whose two times are not
    after the current time. *)
Definition bells_of_the_past (L : LibM) (data : AudioCustomData) : Prop :=
  (0 <= sample_nr data)%Z /\
  Forall (fun m => times_in_the_past data m /\ instrument m = Bell L)
    (notes data).

(** * Properties *)

(** ** Comparisons *)

Lemma fle_true (x y : float) : fle x y = true <-> x <= y.
Proof. unfold fle. apply Qle_bool_iff. Qed.

Lemma fle_false (x y : float) : fle x y = false <-> y < x.
Proof.
  unfold fle. rewrite <- not_true_iff_false, Qle_bool_iff.
  split; [apply Qnot_le_lt | apply Qlt_not_le].
Qed.

Lemma flt_true (x y : float) : flt x y = true <-> x < y.
Proof. unfold flt. rewrite negb_true_iff. apply fle_false. Qed.

Lemma flt_false (x y : float) : flt x y = false <-> y <= x.
Proof. unfold flt. rewrite negb_false_iff. apply fle_true. Qed.

Lemma fgt_true (x y : float) : fgt x y = true <-> y < x.
Proof. apply flt_true. Qed.

Lemma fgt_false (x y : float) : fgt x y = false <-> x <= y.
Proof. apply flt_false. Qed.

(** Case analysis on the next comparison of the goal, the outcome left as a
    hypothesis on the numbers. *)
Ltac fcase :=
  match goal with
  | |- context [fle ?x ?y] =>
      let E := fresh "E" in
      destruct (fle x y) eqn:E;
      [apply fle_true in E | apply fle_false in E]
  | |- context [fgt ?x ?y] =>
      let E := fresh "E" in
      destruct (fgt x y) eqn:E;
      [apply fgt_true in E | apply fgt_false in E]
  | |- context [flt ?x ?y] =>
      let E := fresh "E" in
      destruct (flt x y) eqn:E;
      [apply flt_true in E | apply flt_false in E]
  end.

Ltac fcases := repeat fcase.

(** ** The envelope *)

Lemma clampNegative_compat (x y : float) :
  x == y -> clampNegative x == clampNegative y.
Proof. intros H. unfold clampNegative. fcases; lra. Qed.

Lemma clampNegative_nonneg (x : float) : 0 <= clampNegative x.
Proof. unfold clampNegative. fcases; lra. Qed.

(** The last statement of [getAmplitude] is the clamp. *)
Lemma final_clamp (a : float) :
  (if flt a 0.0000 then 0.0 else a) == clampNegative a.
Proof. unfold clampNegative. fcases; lra. Qed.

(** The held branch of [getAmplitude] is the formula of the specification
    at the life [t - timeOn], clamped. *)
Lemma getAmplitude_held (e : EnvelopeADSR) (t timeOn timeOff : float) :
  timeOff < timeOn ->
  getAmplitude e t timeOn timeOff == clampNegative (heldFormula e (t - timeOn)).
Proof.
  intros Hheld. unfold getAmplitude.
  apply fgt_true in Hheld. rewrite Hheld.
  rewrite final_clamp. apply clampNegative_compat.
  unfold heldFormula. fcases; lra.
Qed.

(** The release branch of [getAmplitude] computes its start amplitude by
    the held formula, provided the decay time is not negative (with a
    negative decay time the third [if] of the branch overrides the attack). *)
Lemma getAmplitude_released (e : EnvelopeADSR) (t timeOn timeOff : float) :
  0 <= decayTime e ->
  timeOn <= timeOff ->
  getAmplitude e t timeOn timeOff == releasedAmplitude e t timeOn timeOff.
Proof.
  intros Hdecay Hrel. unfold getAmplitude, releasedAmplitude.
  apply fgt_false in Hrel. rewrite Hrel.
  rewrite final_clamp. apply clampNegative_compat.
  unfold heldFormula, rampToZero. fcases; lra.
Qed.

(** C1.  For a released note ([timeOn <= timeOff]) of an envelope with
    positive time constants, at every time [t], the amplitude is the held
    attack/decay/sustain formula at the fixed life [timeOff - timeOn],
    ramped linearly to 0 along [(t - timeOff) / releaseTime] and clamped to 0
    when negative. *)
Theorem released_amplitude_is_ramped_held_formula
    (e : EnvelopeADSR) (t timeOn timeOff : float) :
  positive_times e ->
  timeOn <= timeOff ->
  getAmplitude e t timeOn timeOff
  == clampNegative
       (rampToZero (heldFormula e (timeOff - timeOn))
                   ((t - timeOff) / releaseTime e)).
Proof.
  intros (_ & Hdecay & _) Hrel.
  rewrite getAmplitude_released by lra.
  reflexivity.
Qed.

Lemma released_amplitude_is_ramped_held_formula_witness :
  positive_times Bell_envelope /\ 1 <= 1.5 /\
  getAmplitude Bell_envelope 2 1 1.5
  == clampNegative
       (rampToZero (heldFormula Bell_envelope (1.5 - 1))
                   ((2 - 1.5) / releaseTime Bell_envelope)).
Proof.
  assert (P : positive_times Bell_envelope)
    by (unfold positive_times; simpl; repeat split; lra).
  assert (R : 1 <= 1.5) by lra.
  exact (conj P (conj R
           (released_amplitude_is_ramped_held_formula Bell_envelope 2 1 1.5 P R))).
Defined.

(** *** The attack midpoint of the bell *)

(** C2, as stated, fails.  With [timeOn = 0] and [timeOff = 0] the test
    [timeOn > timeOff] is false, the note is taken as released with life 0,
    and the amplitude at [t = 0.005] is 0, at distance 0.5 from the attack
    midpoint. *)
Lemma bell_midpoint_at_time_zero_is_silent :
  getAmplitude Bell_envelope 0.005 0 0 == 0 /\
  Qabs (getAmplitude Bell_envelope 0.005 0 0 - 0.5) == 0.5.
Proof. split; vm_compute; reflexivity. Qed.

(** C2, amended.  For the envelope of the bell and a held note
    ([timeOn > timeOff], as with [timeOn > 0] and the sentinel [timeOff = 0]),
    the amplitude 0.005 s after [timeOn] is 0.5, the midpoint of the linear
    attack. *)
Theorem bell_attack_midpoint (timeOn timeOff : float) :
  timeOff < timeOn ->
  getAmplitude Bell_envelope (timeOn + 0.005) timeOn timeOff == 0.5.
Proof.
  intros Hheld. rewrite getAmplitude_held by assumption.
  unfold heldFormula, clampNegative, Bell_envelope.
  cbn [attackTime decayTime releaseTime sustainAmplitude startAmplitude].
  assert (Hmid : (timeOn + 0.005 - timeOn) / 0.01 * 1.0 == 0.5) by field.
  fcases; lra.
Qed.

Lemma bell_attack_midpoint_witness :
  0 < 1 /\ getAmplitude Bell_envelope (1 + 0.005) 1 0 == 0.5.
Proof.
  assert (H : 0 < 1) by lra.
  exact (conj H (bell_attack_midpoint 1 0 H)).
Defined.

(** *** Continuity at the release *)

(** C3, as stated, fails at [timeOn = 0]: the call with the sentinel is then
    a call on a released note of life 0, and gives 0, while the note released
    at [timeOff = 0.005] starts its release from the attack midpoint. *)
Lemma sentinel_call_differs_at_time_zero :
  0 < 0.005 /\
  getAmplitude Bell_envelope 0.005 0 0 == 0 /\
  getAmplitude Bell_envelope 0.005 0 0.005 == 0.5.
Proof. split; [lra | split; vm_compute; reflexivity]. Qed.

(** C3, amended.  For positive time constants, every [timeOn > 0] and every
    [timeOff > timeOn], the amplitude of the held note at [t = timeOff],
    computed with the sentinel 0, is the amplitude of the released note at
    the same instant. *)
Theorem continuity_at_release (e : EnvelopeADSR) (timeOn timeOff : float) :
  positive_times e ->
  0 < timeOn ->
  timeOn < timeOff ->
  getAmplitude e timeOff timeOn 0 == getAmplitude e timeOff timeOn timeOff.
Proof.
  intros (_ & Hdecay & _) Hon Hoff.
  rewrite getAmplitude_held by assumption.
  rewrite getAmplitude_released by lra.
  unfold releasedAmplitude. apply clampNegative_compat.
  unfold rampToZero, Qdiv. ring.
Qed.

Lemma continuity_at_release_witness :
  positive_times Harmonica_envelope /\ 0 < 1 /\ 1 < 3 /\
  getAmplitude Harmonica_envelope 3 1 0 == getAmplitude Harmonica_envelope 3 1 3.
Proof.
  assert (P : positive_times Harmonica_envelope)
    by (unfold positive_times; simpl; repeat split; lra).
  assert (A : 0 < 1) by lra.
  assert (B : 1 < 3) by lra.
  exact (conj P (conj A (conj B
           (continuity_at_release Harmonica_envelope 1 3 P A B)))).
Defined.

(** *** Before the note starts *)

(** C4, as stated, fails for a released note: the release ramp is followed
    backwards in time as well.  The bell note pressed at 1 and released at 2
    has amplitude 0.03 at [t = 0]. *)
Lemma released_note_sounds_before_timeOn :
  0 < 1 /\ 1 <= 2 /\ getAmplitude Bell_envelope 0 1 2 == 0.03.
Proof. split; [lra | split; [lra | vm_compute; reflexivity]]. Qed.

(** C4, amended.  For a held note ([timeOn > timeOff]), a positive attack
    time and a start amplitude that is not negative, the amplitude at every
    time strictly before [timeOn] is 0. *)
Theorem held_note_silent_before_timeOn
    (e : EnvelopeADSR) (t timeOn timeOff : float) :
  0 < attackTime e ->
  0 <= startAmplitude e ->
  timeOff < timeOn ->
  t < timeOn ->
  getAmplitude e t timeOn timeOff == 0.
Proof.
  intros Hattack Hstart Hheld Hbefore.
  rewrite getAmplitude_held by assumption.
  unfold heldFormula.
  assert (Hx : (t - timeOn) / attackTime e < 0)
    by (apply Qlt_shift_div_r; lra).
  assert (Hle : fle (t - timeOn) (attackTime e) = true)
    by (apply fle_true; lra).
  rewrite Hle. unfold clampNegative.
  assert (Hprod : 0 <= - ((t - timeOn) / attackTime e) * startAmplitude e)
    by (apply Qmult_le_0_compat; lra).
  generalize dependent ((t - timeOn) / attackTime e). intros x _ Hprod.
  fcases; lra.
Qed.

Lemma held_note_silent_before_timeOn_witness :
  0 < attackTime Bell_envelope /\ 0 <= startAmplitude Bell_envelope /\
  0 < 1 /\ 0.5 < 1 /\
  getAmplitude Bell_envelope 0.5 1 0 == 0.
Proof.
  assert (A : 0 < attackTime Bell_envelope) by (simpl; lra).
  assert (S : 0 <= startAmplitude Bell_envelope) by (simpl; lra).
  assert (H : 0 < 1) by lra.
  assert (B : 0.5 < 1) by lra.
  exact (conj A (conj S (conj H (conj B
           (held_note_silent_before_timeOn Bell_envelope 0.5 1 0 A S H B))))).
Defined.

(** *** The range of the amplitude *)

Lemma heldFormula_le_1 (e : EnvelopeADSR) (life : float) :
  positive_times e -> unit_levels e -> heldFormula e life <= 1.
Proof.
  intros (Ha & Hd & _) ((Hs0 & Hs1) & (Hu0 & Hu1)). unfold heldFormula.
  fcases.
  - assert (Hx : life / attackTime e <= 1)
      by (apply Qle_shift_div_r; lra).
    assert (Hp : 0 <= (1 - life / attackTime e) * startAmplitude e)
      by (apply Qmult_le_0_compat; lra).
    generalize dependent (life / attackTime e). intros x _ Hp. lra.
  - assert (Hy0 : 0 <= (life - attackTime e) / decayTime e)
      by (apply Qle_shift_div_l; lra).
    assert (Hy1 : (life - attackTime e) / decayTime e <= 1)
      by (apply Qle_shift_div_r; lra).
    assert (Hp : 0 <= (1 - (life - attackTime e) / decayTime e)
                       * (1 - startAmplitude e))
      by (apply Qmult_le_0_compat; lra).
    assert (Hq : 0 <= (life - attackTime e) / decayTime e
                       * (1 - sustainAmplitude e))
      by (apply Qmult_le_0_compat; lra).
    generalize dependent ((life - attackTime e) / decayTime e).
    intros y _ _ Hp Hq. lra.
  - lra.
Qed.

Lemma heldFormula_nonneg (e : EnvelopeADSR) (life : float) :
  positive_times e -> unit_levels e -> 0 <= life -> 0 <= heldFormula e life.
Proof.
  intros (Ha & Hd & _) ((Hs0 & Hs1) & (Hu0 & Hu1)) Hlife. unfold heldFormula.
  fcases.
  - apply Qmult_le_0_compat; [apply Qle_shift_div_l; lra | lra].
  - assert (Hy0 : 0 <= (life - attackTime e) / decayTime e)
      by (apply Qle_shift_div_l; lra).
    assert (Hy1 : (life - attackTime e) / decayTime e <= 1)
      by (apply Qle_shift_div_r; lra).
    assert (Hp : 0 <= (1 - (life - attackTime e) / decayTime e)
                       * startAmplitude e)
      by (apply Qmult_le_0_compat; lra).
    assert (Hq : 0 <= (life - attackTime e) / decayTime e
                       * sustainAmplitude e)
      by (apply Qmult_le_0_compat; lra).
    generalize dependent ((life - attackTime e) / decayTime e).
    intros y _ _ Hp Hq. lra.
  - lra.
Qed.

Lemma clampNegative_le (x b : float) : 0 <= b -> x <= b -> clampNegative x <= b.
Proof. intros Hb Hx. unfold clampNegative. fcases; lra. Qed.

Lemma getAmplitude_nonneg (e : EnvelopeADSR) (t timeOn timeOff : float) :
  0 <= getAmplitude e t timeOn timeOff.
Proof.
  unfold getAmplitude.
  match goal with
  | |- 0 <= (if flt ?a _ then _ else _) =>
      generalize a; intros a'
  end.
  fcases; lra.
Qed.

(** C9, as stated, fails: a released note evaluated before its release time
    follows the release ramp backwards, above its start.  The bell note
    pressed at 1 and released at 1.01, at the top of its attack, has
    amplitude 2.01 at [t = 0]. *)
Lemma released_note_amplitude_above_one :
  positive_times Bell_envelope /\ unit_levels Bell_envelope /\
  getAmplitude Bell_envelope 0 1 1.01 == 2.01 /\
  ~ getAmplitude Bell_envelope 0 1 1.01 <= 1.
Proof.
  assert (V : getAmplitude Bell_envelope 0 1 1.01 == 2.01)
    by (vm_compute; reflexivity).
  split; [| split; [| split]].
  - unfold positive_times; simpl; repeat split; lra.
  - unfold unit_levels; simpl; repeat split; lra.
  - exact V.
  - rewrite V. lra.
Qed.

(** C9, amended.  For positive time constants and amplitude levels in
    [0,1], the amplitude is never negative, and it is at most 1 whenever the
    note is held or [t] is not before [timeOff]. *)
Theorem amplitude_in_unit_interval
    (e : EnvelopeADSR) (t timeOn timeOff : float) :
  positive_times e ->
  unit_levels e ->
  0 <= getAmplitude e t timeOn timeOff /\
  (timeOff < timeOn \/ timeOff <= t -> getAmplitude e t timeOn timeOff <= 1).
Proof.
  intros Hpos Hlev. split; [apply getAmplitude_nonneg |].
  intros Hcase.
  destruct (Qlt_le_dec timeOff timeOn) as [Hheld | Hrel].
  - rewrite getAmplitude_held by assumption.
    apply clampNegative_le; [lra | apply heldFormula_le_1; assumption].
  - destruct Hcase as [Hheld | Hafter]; [lra |].
    destruct Hpos as (Ha & Hd & Hr).
    rewrite getAmplitude_released by lra.
    unfold releasedAmplitude. apply clampNegative_le; [lra |].
    assert (H1 : heldFormula e (timeOff - timeOn) <= 1)
      by (apply heldFormula_le_1; unfold positive_times; auto).
    assert (H0 : 0 <= heldFormula e (timeOff - timeOn))
      by (apply heldFormula_nonneg; unfold positive_times; auto; lra).
    assert (Hz : 0 <= (t - timeOff) / releaseTime e)
      by (apply Qle_shift_div_l; lra).
    assert (Hp : 0 <= heldFormula e (timeOff - timeOn)
                       * ((t - timeOff) / releaseTime e))
      by (apply Qmult_le_0_compat; assumption).
    unfold rampToZero.
    generalize dependent (heldFormula e (timeOff - timeOn)). intros R H1 H0.
    generalize ((t - timeOff) / releaseTime e). intros z Hp. lra.
Qed.

Lemma amplitude_in_unit_interval_witness :
  positive_times Harmonica_envelope /\ unit_levels Harmonica_envelope /\
  0 <= getAmplitude Harmonica_envelope 2.05 1 2 /\
  (2 < 1 \/ 2 <= 2.05 -> getAmplitude Harmonica_envelope 2.05 1 2 <= 1).
Proof.
  assert (P : positive_times Harmonica_envelope)
    by (unfold positive_times; simpl; repeat split; lra).
  assert (U : unit_levels Harmonica_envelope)
    by (unfold unit_levels; simpl; repeat split; lra).
  exact (conj P (conj U
           (amplitude_in_unit_interval Harmonica_envelope 2.05 1 2 P U))).
Defined.

(** *** A note whose two times are equal *)

(** With [timeOn = timeOff] the release branch runs on life 0: the release
    starts from amplitude 0 and the result is 0 at every [t]. *)
Lemma getAmplitude_equal_times (e : EnvelopeADSR) (t timeOn timeOff : float) :
  positive_times e ->
  timeOn == timeOff ->
  getAmplitude e t timeOn timeOff == 0.
Proof.
  intros (Ha & Hd & _) Heq.
  rewrite getAmplitude_released by lra.
  unfold releasedAmplitude, heldFormula.
  assert (Hlife : timeOff - timeOn == 0) by lra.
  assert (Hle : fle (timeOff - timeOn) (attackTime e) = true)
    by (apply fle_true; lra).
  rewrite Hle.
  assert (Hstart : (timeOff - timeOn) / attackTime e * startAmplitude e == 0)
    by (rewrite Hlife; unfold Qdiv; ring).
  unfold rampToZero, clampNegative.
  fcases; [reflexivity | rewrite Hstart; ring].
Qed.

(** The flag [sound] of the bell reports is the test [amplitude > 0.0f]. *)
Lemma Bell_sound_alive (L : LibM) (hertz t timeOn timeOff : float) (n : nat) :
  snd (fst (sound (Bell L) hertz t timeOn timeOff n))
  = fgt (getAmplitude Bell_envelope t timeOn timeOff) 0.0.
Proof. reflexivity. Qed.

Lemma Bell_envelope_positive_times : positive_times Bell_envelope.
Proof. unfold positive_times; simpl; repeat split; lra. Qed.

(** A key pressed at clock time 0 gives a note with [timeOn] and [timeOff]
    both 0; the next call of the audio callback finds it dead and the next
    turn of the loop removes it, whatever the C library. *)
Lemma key_pressed_at_clock_zero (L : LibM) :
  map (fun n => (Qeq_bool (timeOn n) (timeOff n), active n))
      (notes (custom_data
                (main_run L [Turn [SDL_KEYDOWN SDL_SCANCODE_Z false]])))
  = [(true, true)] /\
  map active
      (notes (custom_data
                (main_run L [Turn [SDL_KEYDOWN SDL_SCANCODE_Z false];
                             Audio 1024])))
  = [false] /\
  notes (custom_data
           (main_run L [Turn [SDL_KEYDOWN SDL_SCANCODE_Z false];
                        Audio 1024; Turn []]))
  = [].
Proof. repeat split; vm_compute; reflexivity. Qed.

(** C10.  A note is held only when [timeOn > timeOff].  When the two
    times are equal, as for a key pressed at clock time 0 with the sentinel
    [timeOff = 0], the release branch runs with life 0: for every envelope
    with positive time constants the amplitude is 0 at every [t], and the
    bell reports the note dead whatever the frequency. *)
Theorem equal_times_note_is_dead
    (e : EnvelopeADSR) (t timeOn timeOff : float) :
  positive_times e ->
  timeOn == timeOff ->
  fgt timeOn timeOff = false /\
  getAmplitude e t timeOn timeOff == 0 /\
  (forall (L : LibM) (hertz : float) (n : nat),
      snd (fst (sound (Bell L) hertz t timeOn timeOff n)) = false).
Proof.
  intros Hpos Heq. split; [apply fgt_false; lra | split].
  - apply getAmplitude_equal_times; assumption.
  - intros L hertz n. rewrite Bell_sound_alive. apply fgt_false.
    rewrite (getAmplitude_equal_times Bell_envelope t timeOn timeOff
               Bell_envelope_positive_times Heq).
    lra.
Qed.

Lemma equal_times_note_is_dead_witness :
  positive_times Bell_envelope /\ 0 == 0 /\
  fgt 0 0 = false /\
  getAmplitude Bell_envelope 0.005 0 0 == 0 /\
  (forall (L : LibM) (hertz : float) (n : nat),
      snd (fst (sound (Bell L) hertz 0.005 0 0 n)) = false).
Proof.
  assert (P : positive_times Bell_envelope)
    by (unfold positive_times; simpl; repeat split; lra).
  assert (E : 0 == 0) by reflexivity.
  exact (conj P (conj E (equal_times_note_is_dead Bell_envelope 0.005 0 0 P E))).
Defined.

(** ** The oscillator *)

(** The loop of the saw adds the harmonics [i, ..., 39] to [answer], once
    the fuel covers them. *)
Lemma saw_loop_sum (L : LibM) (freq : float) (count : nat) :
  forall (fuel : nat) (i : Z) (answer : float),
    (i + Z.of_nat count = 40)%Z ->
    (count < fuel)%nat ->
    saw_loop L freq fuel i answer == answer + harmonic_sum L freq i count.
Proof.
  induction count as [| count IH]; intros fuel i answer Hi Hfuel.
  - destruct fuel as [| fuel]; [lia |]. simpl.
    replace (i <? 40)%Z with false by (symmetry; apply Z.ltb_ge; lia).
    ring.
  - destruct fuel as [| fuel]; [lia |]. simpl.
    replace (i <? 40)%Z with true by (symmetry; apply Z.ltb_lt; lia).
    rewrite IH by lia. ring.
Qed.

(** The phase is [2 pi freq t] plus the modulation, whose factor is [freq]
    and not [2 pi freq]. *)
Lemma phase_value (L : LibM) (t freq fmAmplitude fmHertz : float) :
  phase L t freq fmAmplitude fmHertz
  == 2 * M_PI L * freq * t
     + fmAmplitude * freq * sinf L (H2W L fmHertz * t).
Proof. unfold phase, H2W. ring. Qed.

(** C5.  For every waveform, time, frequency and modulation, [getWave]
    gives the shape of the waveform at the phase
    [2 pi freq t + fmAmplitude freq sin(2 pi fmHertz t)]; the saw is
    [2/pi] times the sum of [sin(i phase)/i] for [i = 1, ..., 39].  Only the
    noise draws a random number. *)
Theorem getWave_is_shape_at_phase
    (L : LibM) (wave_type : WaveType) (t freq fmAmplitude fmHertz : float)
    (n : nat) :
  fst (getWave L wave_type t freq fmAmplitude fmHertz n)
  == shape L wave_type (phase L t freq fmAmplitude fmHertz) (rand_seq L n)
  /\ fst (getWave L SAW t freq fmAmplitude fmHertz n)
     == (2 / M_PI L)
        * harmonic_sum L (phase L t freq fmAmplitude fmHertz) 1 39
  /\ snd (getWave L wave_type t freq fmAmplitude fmHertz n)
     = match wave_type with NOISE => S n | _ => n end.
Proof.
  assert (Hsaw : fst (getWave L SAW t freq fmAmplitude fmHertz n)
                 == (2 / M_PI L)
                    * harmonic_sum L (phase L t freq fmAmplitude fmHertz) 1 39).
  { unfold getWave, ret, phase, H2W. cbn [fst].
    rewrite (saw_loop_sum L _ 39) by (reflexivity || lia).
    unfold Qdiv. ring. }
  split; [| split; [exact Hsaw |]].
  - destruct wave_type; try exact Hsaw;
      unfold getWave, shape, phase, H2W, bind, ret, rand; cbn [fst];
      try reflexivity; unfold Qdiv; ring.
  - destruct wave_type; reflexivity.
Qed.

(** ** Machine integers *)

Lemma wrap_signed_small (bits z : Z) :
  (0 < bits)%Z ->
  (- 2 ^ (bits - 1) <= z < 2 ^ (bits - 1))%Z ->
  wrap_signed bits z = z.
Proof.
  intros Hbits Hz. unfold wrap_signed.
  assert (Hpow : (2 ^ bits = 2 * 2 ^ (bits - 1))%Z).
  { replace bits with (Z.succ (bits - 1)) at 1 by lia.
    apply Z.pow_succ_r. lia. }
  rewrite Z.mod_small by lia. lia.
Qed.

Lemma wrap_signed_range (bits z : Z) :
  (0 < bits)%Z ->
  (- 2 ^ (bits - 1) <= wrap_signed bits z < 2 ^ (bits - 1))%Z.
Proof.
  intros Hbits. unfold wrap_signed.
  assert (Hpow : (2 ^ bits = 2 * 2 ^ (bits - 1))%Z).
  { replace bits with (Z.succ (bits - 1)) at 1 by lia.
    apply Z.pow_succ_r. lia. }
  assert (Hpos : (0 < 2 ^ (bits - 1))%Z) by (apply Z.pow_pos_nonneg; lia).
  pose proof (Z.mod_pos_bound (z + 2 ^ (bits - 1)) (2 ^ bits)) as Hmod.
  lia.
Qed.

Lemma wrap_signed_add_l (bits a b : Z) :
  wrap_signed bits (wrap_signed bits a + b) = wrap_signed bits (a + b).
Proof.
  unfold wrap_signed. f_equal.
  replace ((a + 2 ^ (bits - 1)) mod 2 ^ bits - 2 ^ (bits - 1) + b
           + 2 ^ (bits - 1))%Z
    with ((a + 2 ^ (bits - 1)) mod 2 ^ bits + b)%Z by ring.
  rewrite Zplus_mod_idemp_l. f_equal. ring.
Qed.

Lemma int_wrap_small (z : Z) :
  (- 2147483648 <= z < 2147483648)%Z -> int_wrap z = z.
Proof. intros Hz. apply wrap_signed_small; [lia | exact Hz]. Qed.

Lemma Sint16_wrap_small (z : Z) :
  (- 32768 <= z < 32768)%Z -> Sint16_wrap z = z.
Proof. intros Hz. apply wrap_signed_small; [lia | exact Hz]. Qed.

Lemma Sint16_wrap_range (z : Z) : (- 32768 <= Sint16_wrap z < 32768)%Z.
Proof. apply (wrap_signed_range 16 z). lia. Qed.

(** ** The audio callback *)

(** The inner loop changes nothing of a note but its flag [active]. *)
Lemma mix_notes_same_notes (time : float) (ns : list Note) :
  forall (buffer_i : Z) (n : nat),
    Forall2 same_but_active ns (snd (fst (mix_notes time ns buffer_i n))).
Proof.
  induction ns as [| note rest IH]; intros buffer_i n; simpl.
  - constructor.
  - unfold bind.
    destruct (sound (instrument note) (freq note) time (timeOn note)
                (timeOff note) n) as [[result alive] n1].
    specialize (IH (Sint16_add buffer_i
                      (Sint16_of_float (inject_Z (Z.quot AMPLITUDE 4) * result)))
                   n1).
    destruct (mix_notes time rest _ n1) as [[b rest'] n2]. simpl in *.
    constructor; [| exact IH].
    unfold same_but_active. simpl. auto.
Qed.

Lemma mix_notes_length (time : float) (ns : list Note) (buffer_i : Z) (n : nat) :
  length (snd (fst (mix_notes time ns buffer_i n))) = length ns.
Proof.
  symmetry. eapply Forall2_length. apply mix_notes_same_notes.
Qed.

(** The clock after [k] increments. *)
Lemma render_loop_clock (k : nat) :
  forall (data : AudioCustomData) (n : nat),
    (0 <= sample_nr data)%Z ->
    (sample_nr data + Z.of_nat k < 2147483648)%Z ->
    sample_nr (snd (fst (render_loop k data n)))
    = (sample_nr data + Z.of_nat k)%Z.
Proof.
  induction k as [| k IH]; intros data n Hlo Hhi; simpl.
  - lia.
  - unfold bind.
    destruct (mix_notes _ (notes data) 0%Z n) as [[b ns] n1].
    set (data' := {| sample_nr := int_wrap (sample_nr data + 1); notes := ns |}).
    assert (Hc : sample_nr data' = (sample_nr data + 1)%Z)
      by (apply int_wrap_small; lia).
    specialize (IH data' n1).
    destruct (render_loop k data' n1) as [[buf d] n2]. simpl in *.
    rewrite IH; lia.
Qed.

Lemma render_loop_length (k : nat) :
  forall (data : AudioCustomData) (n : nat),
    length (fst (fst (render_loop k data n))) = k.
Proof.
  induction k as [| k IH]; intros data n; simpl.
  - reflexivity.
  - unfold bind.
    destruct (mix_notes _ (notes data) 0%Z n) as [[b ns] n1].
    specialize (IH {| sample_nr := int_wrap (sample_nr data + 1); notes := ns |} n1).
    destruct (render_loop k _ n1) as [[buf d] n2]. simpl in *.
    now rewrite IH.
Qed.

Lemma render_loop_notes_length (k : nat) :
  forall (data : AudioCustomData) (n : nat),
    length (notes (snd (fst (render_loop k data n)))) = length (notes data).
Proof.
  induction k as [| k IH]; intros data n; simpl.
  - reflexivity.
  - unfold bind.
    pose proof (mix_notes_length
                  (inject_Z (sample_nr data) / inject_Z SAMPLE_RATE)
                  (notes data) 0%Z n) as Hlen.
    destruct (mix_notes _ (notes data) 0%Z n) as [[b ns] n1].
    specialize (IH {| sample_nr := int_wrap (sample_nr data + 1); notes := ns |} n1).
    destruct (render_loop k _ n1) as [[buf d] n2]. simpl in *.
    now rewrite IH.
Qed.

(** On an empty registry the first loop writes zeros and draws nothing. *)
Lemma render_loop_empty (k : nat) :
  forall (nr : Z) (n : nat),
    (0 <= nr)%Z ->
    (nr + Z.of_nat k < 2147483648)%Z ->
    render_loop k {| sample_nr := nr; notes := [] |} n
    = (repeat 0%Z k, {| sample_nr := nr + Z.of_nat k; notes := [] |}, n).
Proof.
  induction k as [| k IH]; intros nr n Hlo Hhi.
  - simpl. unfold ret. do 3 f_equal. lia.
  - cbn [render_loop mix_notes notes sample_nr]. unfold bind, ret.
    rewrite int_wrap_small by lia.
    rewrite IH by lia. cbn [repeat].
    replace (nr + 1 + Z.of_nat k)%Z with (nr + Z.of_nat (S k))%Z by lia.
    reflexivity.
Qed.

Lemma silence_loop_result (k : nat) :
  forall (nr : Z) (ns : list Note),
    (0 <= nr)%Z ->
    (nr + Z.of_nat k < 2147483648)%Z ->
    silence_loop k {| sample_nr := nr; notes := ns |}
    = (repeat 0%Z k, {| sample_nr := nr + Z.of_nat k; notes := ns |}).
Proof.
  induction k as [| k IH]; intros nr ns Hlo Hhi.
  - simpl. do 2 f_equal. lia.
  - cbn [silence_loop notes sample_nr].
    rewrite int_wrap_small by lia.
    rewrite IH by lia. cbn [repeat].
    replace (nr + 1 + Z.of_nat k)%Z with (nr + Z.of_nat (S k))%Z by lia.
    reflexivity.
Qed.

Lemma silence_loop_buffer (k : nat) :
  forall data : AudioCustomData, fst (silence_loop k data) = repeat 0%Z k.
Proof.
  induction k as [| k IH]; intros data; simpl.
  - reflexivity.
  - specialize (IH {| sample_nr := int_wrap (sample_nr data + 1);
                      notes := notes data |}).
    destruct (silence_loop k _) as [buf d]. simpl in *. now rewrite IH.
Qed.

(** With notes in the registry the callback writes [bytes/2] samples and
    advances the clock by as many. *)
Lemma audio_callback_with_notes (data : AudioCustomData) (bytes : Z) (n : nat) :
  notes data <> [] ->
  (0 <= sample_nr data)%Z ->
  (0 <= bytes)%Z ->
  (sample_nr data + Z.quot bytes 2 < 2147483648)%Z ->
  let out := fst (audio_callback data bytes n) in
  length (fst out) = Z.to_nat (Z.quot bytes 2) /\
  sample_nr (snd out) = (sample_nr data + Z.quot bytes 2)%Z.
Proof.
  intros Hne Hlo Hbytes Hhi. cbv zeta. unfold audio_callback, bind.
  assert (Hq : (0 <= Z.quot bytes 2)%Z) by (apply Z.quot_pos; lia).
  pose proof (render_loop_length (Z.to_nat (Z.quot bytes 2)) data n) as Hlen.
  pose proof (render_loop_notes_length (Z.to_nat (Z.quot bytes 2)) data n) as Hns.
  pose proof (render_loop_clock (Z.to_nat (Z.quot bytes 2)) data n Hlo) as Hclock.
  rewrite Z2Nat.id in Hclock by assumption. specialize (Hclock Hhi).
  destruct (render_loop _ data n) as [[buf d] n1]. simpl in *.
  destruct (notes d) as [| x xs] eqn:Hd.
  - destruct (notes data); [congruence | discriminate].
  - unfold ret. simpl. auto.
Qed.

(** C6 fails on the code where the registry is empty: the first loop has
    already counted the [bytes/2] samples when the second loop, which
    rewrites them as zeros, counts them again.  The callback writes
    [bytes/2] zeros and advances the clock by twice as many. *)
Theorem silent_callback_advances_clock_twice (nr bytes : Z) (n : nat) :
  (0 <= nr)%Z ->
  (0 <= bytes)%Z ->
  (nr + 2 * Z.quot bytes 2 < 2147483648)%Z ->
  audio_callback {| sample_nr := nr; notes := [] |} bytes n
  = (repeat 0%Z (Z.to_nat (Z.quot bytes 2)),
     {| sample_nr := nr + 2 * Z.quot bytes 2; notes := [] |}, n).
Proof.
  intros Hlo Hbytes Hhi. unfold audio_callback, bind.
  assert (Hq : (0 <= Z.quot bytes 2)%Z) by (apply Z.quot_pos; lia).
  rewrite render_loop_empty by (rewrite ?Z2Nat.id; lia).
  cbn [notes]. unfold ret.
  rewrite silence_loop_result by (rewrite ?Z2Nat.id; lia).
  rewrite Z2Nat.id by assumption.
  do 3 f_equal. lia.
Qed.

Lemma silent_callback_advances_clock_twice_witness :
  (0 <= 0)%Z /\ (0 <= 1024)%Z /\ (0 + 2 * Z.quot 1024 2 < 2147483648)%Z /\
  audio_callback AudioCustomData_new 1024 O
  = (repeat 0%Z 512, {| sample_nr := 1024; notes := [] |}, O).
Proof.
  assert (A : (0 <= 0)%Z) by lia.
  assert (B : (0 <= 1024)%Z) by lia.
  assert (C : (0 + 2 * Z.quot 1024 2 < 2147483648)%Z) by (vm_compute; reflexivity).
  exact (conj A (conj B (conj C
           (silent_callback_advances_clock_twice 0 1024 O A B C)))).
Defined.

(** *** The value of a sample *)

(** The inner loop leaves in [buffer[i]] the wrapped sum of what it started
    from and the converted results. *)
Lemma mix_notes_value (time : float) (ns : list Note) :
  forall (buffer_i : Z) (n : nat),
    (- 32768 <= buffer_i < 32768)%Z ->
    fst (fst (mix_notes time ns buffer_i n))
    = Sint16_wrap
        (buffer_i
         + Zsum (map (fun r => Sint16_of_float (headroom * r))
                     (fst (sound_results time ns n)))).
Proof.
  induction ns as [| note rest IH]; intros buffer_i n Hrange; simpl.
  - unfold ret. simpl. rewrite Z.add_0_r. symmetry.
    apply Sint16_wrap_small. exact Hrange.
  - unfold bind.
    destruct (sound (instrument note) (freq note) time (timeOn note)
                (timeOff note) n) as [[result alive] n1].
    specialize (IH (Sint16_add buffer_i
                      (Sint16_of_float (inject_Z (Z.quot AMPLITUDE 4) * result)))
                   n1 (Sint16_wrap_range _)).
    destruct (mix_notes time rest _ n1) as [[b rest'] n2].
    destruct (sound_results time rest n1) as [results n3].
    unfold ret. simpl in *. rewrite IH.
    unfold Sint16_add, Sint16_wrap, headroom.
    rewrite wrap_signed_add_l. f_equal. ring.
Qed.

(** Rendering [i + j] samples is rendering [i] samples, then [j] more. *)
Lemma render_loop_app (i j : nat) :
  forall (data : AudioCustomData) (n : nat),
    render_loop (i + j) data n
    = (let '(buf1, d1, n1) := render_loop i data n in
       let '(buf2, d2, n2) := render_loop j d1 n1 in
       (buf1 ++ buf2, d2, n2)).
Proof.
  induction i as [| i IH]; intros data n.
  - simpl. unfold ret. destruct (render_loop j data n) as [[buf2 d2] n2].
    reflexivity.
  - cbn [Nat.add render_loop]. unfold bind.
    destruct (mix_notes _ (notes data) 0%Z n) as [[b ns] n1].
    rewrite IH.
    destruct (render_loop i _ n1) as [[buf1 d1] n2].
    unfold ret. cbv iota beta.
    destruct (render_loop j d1 n2) as [[buf2 d2] n3].
    reflexivity.
Qed.

(** The sample of index [i] of the first loop is the inner loop run on the
    data the first [i] samples leave. *)
Lemma render_loop_nth (k i : nat) (data : AudioCustomData) (n : nat) :
  (i < k)%nat ->
  let before := render_loop i data n in
  let d := snd (fst before) in
  nth_error (fst (fst (render_loop k data n))) i
  = Some (fst (fst (mix_notes (inject_Z (sample_nr d) / inject_Z SAMPLE_RATE)
                      (notes d) 0%Z (snd before)))).
Proof.
  intros Hik. cbv zeta.
  replace k with (i + S (k - S i))%nat by lia.
  rewrite render_loop_app.
  pose proof (render_loop_length i data n) as Hlen.
  destruct (render_loop i data n) as [[buf1 d1] n1]. simpl in Hlen.
  cbn [fst snd render_loop]. unfold bind.
  destruct (mix_notes _ (notes d1) 0%Z n1) as [[b ns] n2].
  destruct (render_loop (k - S i) _ n2) as [[buf2 d2] n3].
  unfold ret. cbn [fst snd].
  rewrite nth_error_app2 by lia.
  rewrite Hlen, Nat.sub_diag. reflexivity.
Qed.

(** C8, as stated, fails: the results are not added as floats.  Two notes
    that sound at 0.00012 give 0.6 each once scaled, which the conversion
    truncates to 0 before the addition: the sample is 0, where the sum
    scaled once, 1.2, converts to 1. *)
Lemma quiet_notes_are_truncated_one_by_one :
  fst (fst (audio_callback quiet_pair 2 O)) = [0%Z] /\
  fst (sound_results 0 (notes quiet_pair) O) = [0.00012; 0.00012] /\
  mixed_then_converted (fst (sound_results 0 (notes quiet_pair) O)) = 1%Z.
Proof. repeat split; vm_compute; reflexivity. Qed.

(** C8, amended.  Every sample the callback writes is the 16-bit wrapped
    sum, over the notes of the registry in order, of the results of [sound]
    each scaled by the headroom factor 5000 and converted to 16 bits on its
    own (truncated towards zero), the results being those of the calls at
    the time and with the data the earlier samples leave. *)
Theorem each_sample_is_converted_then_mixed
    (data : AudioCustomData) (bytes : Z) (n i : nat) :
  (i < Z.to_nat (Z.quot bytes 2))%nat ->
  let before := render_loop i data n in
  let d := snd (fst before) in
  let time := inject_Z (sample_nr d) / inject_Z SAMPLE_RATE in
  nth_error (fst (fst (audio_callback data bytes n))) i
  = Some (converted_then_mixed
            (fst (sound_results time (notes d) (snd before)))).
Proof.
  intros Hi. cbv zeta. unfold audio_callback, bind.
  pose proof (render_loop_nth _ i data n Hi) as Hnth. cbv zeta in Hnth.
  pose proof (render_loop_notes_length (Z.to_nat (Z.quot bytes 2)) data n) as Hall.
  pose proof (render_loop_notes_length i data n) as Hsome.
  rewrite mix_notes_value in Hnth by lia.
  destruct (render_loop (Z.to_nat (Z.quot bytes 2)) data n) as [[buf d] n1].
  cbn [fst snd] in *.
  destruct (notes d) as [| x xs] eqn:Hd.
  - unfold ret. cbn [fst]. rewrite silence_loop_buffer.
    destruct (notes (snd (fst (render_loop i data n)))) as [| y ys];
      [| simpl in *; congruence].
    rewrite nth_error_repeat by assumption. reflexivity.
  - unfold ret. cbn [fst]. rewrite Hnth. reflexivity.
Qed.

Lemma each_sample_is_converted_then_mixed_witness :
  (0 < Z.to_nat (Z.quot 2 2))%nat /\
  nth_error (fst (fst (audio_callback quiet_pair 2 O))) 0
  = Some (converted_then_mixed [0.00012; 0.00012]).
Proof.
  assert (H : (0 < Z.to_nat (Z.quot 2 2))%nat) by (vm_compute; lia).
  exact (conj H (each_sample_is_converted_then_mixed quiet_pair 2 O 0 H)).
Defined.

(** ** The keys *)

Lemma release_notes_nth (note_id : Z) (sound_time : float) (ns : list Note) :
  forall (k : nat) (n : Note),
    nth_error ns k = Some n ->
    nth_error (release_notes note_id sound_time ns) k
    = Some (if (id n =? note_id)%Z then set_timeOff n sound_time else n).
Proof.
  induction ns as [| m rest IH]; intros k n Hk.
  - destruct k; discriminate.
  - destruct k as [| k]; simpl in *.
    + injection Hk as ->. reflexivity.
    + apply IH. exact Hk.
Qed.

Lemma release_notes_length (note_id : Z) (sound_time : float) (ns : list Note) :
  length (release_notes note_id sound_time ns) = length ns.
Proof. induction ns as [| m rest IH]; simpl; [reflexivity | now rewrite IH]. Qed.

(** The state [retrigger_steps] leaves, whatever the C library: the clock
    at 2560, and two notes of the key Z in the registry, the first one
    released at 1536/44100, the second one held. *)
Lemma retrigger_run_state (L : LibM) :
  let r := main_run L retrigger_steps in
  quit r = false /\
  sample_nr (custom_data r) = 2560%Z /\
  map (fun n => (id n, timeOn n, timeOff n, active n)) (notes (custom_data r))
  = [ (0%Z, 1024 # 44100, 1536 # 44100, true);
      (0%Z, 2048 # 44100, 0.0, true) ].
Proof. cbv zeta. repeat split; vm_compute; reflexivity. Qed.

(** The key Z going up after [retrigger_steps] sets both [timeOff]s. *)
Lemma retrigger_key_up (L : LibM) :
  let r := main_run L retrigger_steps in
  map timeOff
    (notes (fst (handle_event (main_key_to_note L) (custom_data r, quit r)
                   (SDL_KEYUP SDL_SCANCODE_Z))))
  = [2560 # 44100; 2560 # 44100].
Proof. cbv zeta. vm_compute. reflexivity. Qed.

Lemma first_of_projection {A B : Type} (f : A -> B) (l : list A)
    (y : B) (ys : list B) :
  map f l = y :: ys -> exists x, nth_error l 0 = Some x /\ f x = y.
Proof.
  destruct l as [| x l]; simpl; intros H; [discriminate |].
  injection H as Hx _. exists x. split; [reflexivity | exact Hx].
Qed.

(** C7, as stated, fails, whatever the C library: a key-up does not look at
    whether a note is held.  After [retrigger_steps] the first note of the
    key Z is released ([timeOn] 1024/44100, [timeOff] 1536/44100) and still
    sounding; when the key goes up again, at clock 2560, its [timeOff] is
    overwritten with 2560/44100. *)
Lemma key_up_overwrites_released_timeOff :
  ~ exists L : LibM, released_notes_keep_timeOff L.
Proof.
  intros [L H].
  destruct (retrigger_run_state L) as (_ & _ & Hnotes).
  pose proof (retrigger_key_up L) as Hup. cbv zeta in Hup.
  specialize (H retrigger_steps SDL_SCANCODE_Z 0%nat). cbv zeta in H.
  destruct (first_of_projection _ _ _ _ Hnotes) as (A & HA & HpA).
  injection HpA as HidA HonA HoffA _.
  destruct (H A HA) as (n' & Hn' & Hsame).
  { unfold released. rewrite HonA, HoffA. vm_compute. discriminate. }
  apply (map_nth_error timeOff) in Hn'.
  rewrite Hup in Hn'.
  injection Hn' as Hn'. rewrite <- Hn', HoffA in Hsame.
  vm_compute in Hsame. discriminate.
Qed.

(** C7, amended.  A key-up of a mapped key sets [timeOff] to the current
    clock time on every note of the registry whose id is the id of the key,
    held or released alike, and leaves every other note as it is. *)
Theorem key_up_sets_timeOff_of_every_matching_note
    (key_to_note : KeyMap) (data : AudioCustomData) (q : bool)
    (scancode : SDL_Scancode) (found : Note) (k : nat) (n : Note) :
  map_find key_to_note scancode = Some found ->
  nth_error (notes data) k = Some n ->
  let after :=
    fst (handle_event key_to_note (data, q) (SDL_KEYUP scancode)) in
  let now := inject_Z (sample_nr data) / inject_Z SAMPLE_RATE in
  sample_nr after = sample_nr data /\
  length (notes after) = length (notes data) /\
  nth_error (notes after) k
  = Some (if (id n =? id found)%Z then set_timeOff n now else n).
Proof.
  intros Hfind Hk. cbv zeta. unfold handle_event. rewrite Hfind. cbn [fst notes sample_nr].
  split; [reflexivity | split].
  - apply release_notes_length.
  - apply release_notes_nth. exact Hk.
Qed.

Lemma key_up_sets_timeOff_of_every_matching_note_witness :
  map_find [(SDL_SCANCODE_Z, quiet_note)] SDL_SCANCODE_Z = Some quiet_note /\
  nth_error (notes quiet_pair) 1 = Some quiet_note /\
  let after :=
    fst (handle_event [(SDL_SCANCODE_Z, quiet_note)] (quiet_pair, false)
           (SDL_KEYUP SDL_SCANCODE_Z)) in
  let now := inject_Z (sample_nr quiet_pair) / inject_Z SAMPLE_RATE in
  sample_nr after = sample_nr quiet_pair /\
  length (notes after) = length (notes quiet_pair) /\
  nth_error (notes after) 1
  = Some (if (id quiet_note =? id quiet_note)%Z
          then set_timeOff quiet_note now else quiet_note).
Proof.
  assert (F : map_find [(SDL_SCANCODE_Z, quiet_note)] SDL_SCANCODE_Z
              = Some quiet_note) by reflexivity.
  assert (K : nth_error (notes quiet_pair) 1 = Some quiet_note) by reflexivity.
  exact (conj F (conj K
           (key_up_sets_timeOff_of_every_matching_note
              [(SDL_SCANCODE_Z, quiet_note)] quiet_pair false SDL_SCANCODE_Z
              quiet_note 1 quiet_note F K))).
Defined.

(** * Further properties of the code *)

(** ** The stages of the envelope *)

(** A held note reaches [startAmplitude] exactly at the end of its attack. *)
Theorem held_note_peaks_at_end_of_attack
    (e : EnvelopeADSR) (timeOn timeOff : float) :
  0 < attackTime e ->
  0 <= startAmplitude e ->
  timeOff < timeOn ->
  getAmplitude e (timeOn + attackTime e) timeOn timeOff == startAmplitude e.
Proof.
  intros Ha Hs Hheld. rewrite getAmplitude_held by assumption.
  unfold heldFormula.
  assert (Hle : fle (timeOn + attackTime e - timeOn) (attackTime e) = true)
    by (apply fle_true; lra).
  rewrite Hle.
  assert (Hone : (timeOn + attackTime e - timeOn) / attackTime e == 1)
    by (field; lra).
  transitivity (clampNegative (startAmplitude e)).
  - apply clampNegative_compat. rewrite Hone. ring.
  - unfold clampNegative. fcases; lra.
Qed.

Lemma held_note_peaks_at_end_of_attack_witness :
  0 < attackTime Harmonica_envelope /\ 0 <= startAmplitude Harmonica_envelope /\
  0 < 2 /\
  getAmplitude Harmonica_envelope (2 + attackTime Harmonica_envelope) 2 0
  == startAmplitude Harmonica_envelope.
Proof.
  assert (A : 0 < attackTime Harmonica_envelope) by (simpl; lra).
  assert (S : 0 <= startAmplitude Harmonica_envelope) by (simpl; lra).
  assert (H : 0 < 2) by lra.
  exact (conj A (conj S (conj H
           (held_note_peaks_at_end_of_attack Harmonica_envelope 2 0 A S H)))).
Defined.

(** A held note stays at [sustainAmplitude] from the end of its decay on,
    for as long as it is held. *)
Theorem held_note_sustains
    (e : EnvelopeADSR) (t timeOn timeOff : float) :
  0 <= decayTime e ->
  0 <= sustainAmplitude e ->
  timeOff < timeOn ->
  attackTime e + decayTime e < t - timeOn ->
  getAmplitude e t timeOn timeOff == sustainAmplitude e.
Proof.
  intros Hd Hs Hheld Hlate. rewrite getAmplitude_held by assumption.
  unfold heldFormula.
  assert (H1 : fle (t - timeOn) (attackTime e) = false)
    by (apply fle_false; lra).
  assert (H2 : fle (t - timeOn) (attackTime e + decayTime e) = false)
    by (apply fle_false; lra).
  rewrite H1, H2. unfold clampNegative. fcases; lra.
Qed.

Lemma held_note_sustains_witness :
  0 <= decayTime Harmonica_envelope /\ 0 <= sustainAmplitude Harmonica_envelope /\
  0 < 1 /\
  attackTime Harmonica_envelope + decayTime Harmonica_envelope < 60 - 1 /\
  getAmplitude Harmonica_envelope 60 1 0 == sustainAmplitude Harmonica_envelope.
Proof.
  assert (D : 0 <= decayTime Harmonica_envelope) by (simpl; lra).
  assert (S : 0 <= sustainAmplitude Harmonica_envelope) by (simpl; lra).
  assert (H : 0 < 1) by lra.
  assert (T : attackTime Harmonica_envelope + decayTime Harmonica_envelope
              < 60 - 1) by (simpl; lra).
  exact (conj D (conj S (conj H (conj T
           (held_note_sustains Harmonica_envelope 60 1 0 D S H T))))).
Defined.

(** The start of the release, the held formula at a life that is not
    negative, lies in [0,1]. *)
Lemma release_start_in_unit_interval
    (e : EnvelopeADSR) (timeOn timeOff : float) :
  positive_times e -> unit_levels e -> timeOn <= timeOff ->
  0 <= heldFormula e (timeOff - timeOn) <= 1.
Proof.
  intros Hpos Hlev Hrel. split.
  - apply heldFormula_nonneg; [assumption | assumption | lra].
  - apply heldFormula_le_1; assumption.
Qed.

Lemma clampNegative_monotone (x y : float) :
  x <= y -> clampNegative x <= clampNegative y.
Proof. intros H. unfold clampNegative. fcases; lra. Qed.

(** A released note is silent, and reported dead by the test
    [amplitude > 0], from [timeOff + releaseTime] on. *)
Theorem released_note_dies_after_release_time
    (e : EnvelopeADSR) (t timeOn timeOff : float) :
  positive_times e ->
  unit_levels e ->
  timeOn <= timeOff ->
  timeOff + releaseTime e <= t ->
  getAmplitude e t timeOn timeOff == 0 /\
  fgt (getAmplitude e t timeOn timeOff) 0.0 = false.
Proof.
  intros Hpos Hlev Hrel Hlate.
  assert (Hzero : getAmplitude e t timeOn timeOff == 0).
  { pose proof (release_start_in_unit_interval e timeOn timeOff Hpos Hlev Hrel)
      as [HR0 _].
    destruct Hpos as (Ha & Hd & Hr).
    rewrite getAmplitude_released by lra.
    unfold releasedAmplitude, rampToZero.
    assert (Hz : 1 <= (t - timeOff) / releaseTime e)
      by (apply Qle_shift_div_l; lra).
    assert (Hp : 0 <= heldFormula e (timeOff - timeOn)
                       * ((t - timeOff) / releaseTime e - 1))
      by (apply Qmult_le_0_compat; lra).
    generalize dependent (heldFormula e (timeOff - timeOn)). intros R HR0.
    generalize ((t - timeOff) / releaseTime e). intros z Hp.
    unfold clampNegative. fcases; lra. }
  split; [exact Hzero |]. apply fgt_false. rewrite Hzero. lra.
Qed.

Lemma released_note_dies_after_release_time_witness :
  positive_times Harmonica_envelope /\ unit_levels Harmonica_envelope /\
  1 <= 2 /\ 2 + releaseTime Harmonica_envelope <= 2.1 /\
  getAmplitude Harmonica_envelope 2.1 1 2 == 0 /\
  fgt (getAmplitude Harmonica_envelope 2.1 1 2) 0.0 = false.
Proof.
  assert (P : positive_times Harmonica_envelope)
    by (unfold positive_times; simpl; repeat split; lra).
  assert (U : unit_levels Harmonica_envelope)
    by (unfold unit_levels; simpl; repeat split; lra).
  assert (R : 1 <= 2) by lra.
  assert (T : 2 + releaseTime Harmonica_envelope <= 2.1) by (simpl; lra).
  exact (conj P (conj U (conj R (conj T
           (released_note_dies_after_release_time
              Harmonica_envelope 2.1 1 2 P U R T))))).
Defined.

(** The amplitude of a released note never grows with time. *)
Theorem release_never_grows
    (e : EnvelopeADSR) (t1 t2 timeOn timeOff : float) :
  positive_times e ->
  unit_levels e ->
  timeOn <= timeOff ->
  t1 <= t2 ->
  getAmplitude e t2 timeOn timeOff <= getAmplitude e t1 timeOn timeOff.
Proof.
  intros Hpos Hlev Hrel Ht.
  pose proof (release_start_in_unit_interval e timeOn timeOff Hpos Hlev Hrel)
    as [HR0 _].
  destruct Hpos as (Ha & Hd & Hr).
  rewrite !getAmplitude_released by lra.
  unfold releasedAmplitude. apply clampNegative_monotone. unfold rampToZero.
  assert (Hz : (t1 - timeOff) / releaseTime e <= (t2 - timeOff) / releaseTime e).
  { unfold Qdiv. apply Qmult_le_compat_r; [lra |].
    apply Qlt_le_weak, Qinv_lt_0_compat. exact Hr. }
  assert (Hp : 0 <= heldFormula e (timeOff - timeOn)
                     * ((t2 - timeOff) / releaseTime e
                        - (t1 - timeOff) / releaseTime e))
    by (apply Qmult_le_0_compat; lra).
  generalize dependent (heldFormula e (timeOff - timeOn)). intros R HR0.
  generalize ((t1 - timeOff) / releaseTime e), ((t2 - timeOff) / releaseTime e).
  intros z1 z2 Hp. lra.
Qed.

Lemma release_never_grows_witness :
  positive_times Bell_envelope /\ unit_levels Bell_envelope /\
  1 <= 1.5 /\ 1.6 <= 1.9 /\
  getAmplitude Bell_envelope 1.9 1 1.5 <= getAmplitude Bell_envelope 1.6 1 1.5.
Proof.
  assert (P : positive_times Bell_envelope)
    by (unfold positive_times; simpl; repeat split; lra).
  assert (U : unit_levels Bell_envelope)
    by (unfold unit_levels; simpl; repeat split; lra).
  assert (R : 1 <= 1.5) by lra.
  assert (T : 1.6 <= 1.9) by lra.
  exact (conj P (conj U (conj R (conj T
           (release_never_grows Bell_envelope 1.6 1.9 1 1.5 P U R T))))).
Defined.

Lemma fle_compat (x x' y : float) : x == x' -> fle x y = fle x' y.
Proof. intros H. unfold fle. now rewrite H. Qed.

Lemma fgt_compat (x x' y : float) : x == x' -> fgt x y = fgt x' y.
Proof. intros H. unfold fgt, flt. now rewrite H. Qed.

(** The amplitude depends on its three times only through their
    differences: the same shift of [t], [timeOn] and [timeOff] changes
    nothing. *)
Theorem amplitude_is_shift_invariant
    (e : EnvelopeADSR) (t timeOn timeOff shift : float) :
  getAmplitude e (t + shift) (timeOn + shift) (timeOff + shift)
  == getAmplitude e t timeOn timeOff.
Proof.
  unfold getAmplitude. rewrite !final_clamp. apply clampNegative_compat.
  assert (Hl : t + shift - (timeOn + shift) == t - timeOn) by ring.
  assert (Hr : timeOff + shift - (timeOn + shift) == timeOff - timeOn) by ring.
  assert (Ht : t + shift - (timeOff + shift) == t - timeOff) by ring.
  assert (Hg : fgt (timeOn + shift) (timeOff + shift) = fgt timeOn timeOff).
  { destruct (fgt timeOn timeOff) eqn:E;
      [apply fgt_true in E; apply fgt_true
      | apply fgt_false in E; apply fgt_false]; lra. }
  rewrite Hg, !(fle_compat _ _ _ Hl), !(fle_compat _ _ _ Hr),
    !(fgt_compat _ _ _ Hr).
  fcases; rewrite ?Hl, ?Hr, ?Ht; reflexivity.
Qed.

(** ** The instruments *)

Lemma toy_libm_sane : sane_libm toy_libm.
Proof.
  assert (Hsin : forall x : Q, -1 <= 2 * x / (1 + x * x) <= 1).
  { intros x.
    assert (Hsq : 0 <= x * x) by (destruct (Qlt_le_dec x 0); nra).
    assert (Hlo : 0 <= (1 + x) * (1 + x))
      by (destruct (Qlt_le_dec (1 + x) 0); nra).
    assert (Hhi : 0 <= (1 - x) * (1 - x))
      by (destruct (Qlt_le_dec (1 - x) 0); nra).
    split.
    - apply Qle_shift_div_l; lra.
    - apply Qle_shift_div_r; lra. }
  unfold sane_libm, toy_libm. cbn [sinf asinf M_PI RAND_MAX rand_seq].
  split; [exact Hsin | split; [reflexivity | split; [| split]]].
  - intros x. specialize (Hsin x).
    generalize dependent (2 * x / (1 + x * x)). intros y Hy. lra.
  - reflexivity.
  - intros n.
    pose proof (Z.mod_pos_bound (1103515245 * Z.of_nat n + 12345) 2147483648).
    lia.
Qed.

(** The sum of the waves of an instrument that sounds nothing: a note whose
    envelope is at 0 sounds 0. *)
Lemma silent_product (volume amplitude mix : float) :
  amplitude == 0 -> volume * amplitude * mix == 0.
Proof. intros H. rewrite H. ring. Qed.

Lemma amplitude_not_alive (e : EnvelopeADSR) (t timeOn timeOff : float) :
  fgt (getAmplitude e t timeOn timeOff) 0.0 = false ->
  getAmplitude e t timeOn timeOff == 0.
Proof.
  intros H. apply fgt_false in H.
  pose proof (getAmplitude_nonneg e t timeOn timeOff). lra.
Qed.

(** Each of the three instruments reports a note alive exactly when its
    envelope is above 0, and a note it reports dead sounds 0: removing a
    dead note removes no sound. *)
Theorem dead_notes_are_silent (L : LibM) :
  alive_means_audible (Bell L) /\
  alive_means_audible (Harmonica L) /\
  alive_means_audible (PureSaw L).
Proof.
  repeat split; intros H.
  - apply fgt_true in H. lra.
  - apply fgt_true. lra.
  - apply silent_product, amplitude_not_alive, H.
  - apply fgt_true in H. lra.
  - apply fgt_true. lra.
  - apply silent_product, amplitude_not_alive, H.
  - apply fgt_true in H. lra.
  - apply fgt_true. lra.
  - apply silent_product, amplitude_not_alive, H.
Qed.

(** ** The range of the waves *)

Lemma noise_in_range (r rand_max : Z) :
  (0 < rand_max)%Z -> (0 <= r <= rand_max)%Z ->
  -1 <= 2.0 * inject_Z r / inject_Z rand_max - 1.0 <= 1.
Proof.
  intros Hmax Hr.
  assert (Hm : inject_Z 0 < inject_Z rand_max)
    by (rewrite <- Zlt_Qlt; exact Hmax).
  assert (H0 : inject_Z 0 <= inject_Z r)
    by (rewrite <- Zle_Qle; lia).
  assert (H1 : inject_Z r <= inject_Z rand_max)
    by (rewrite <- Zle_Qle; lia).
  change (inject_Z 0) with 0 in Hm, H0.
  assert (Hlo : 0 <= 2.0 * inject_Z r / inject_Z rand_max)
    by (apply Qle_shift_div_l; lra).
  assert (Hhi : 2.0 * inject_Z r / inject_Z rand_max <= 2)
    by (apply Qle_shift_div_r; lra).
  lra.
Qed.

(** With a sane C library, the sine, the square, the triangle and the noise
    are within [-1,1], and the square is 1 or -1 and nothing else, also
    where the sine is 0. *)
Theorem waves_in_unit_range
    (L : LibM) (wave_type : WaveType) (t hertz fmAmplitude fmHertz : float)
    (n : nat) :
  sane_libm L ->
  wave_type <> SAW ->
  -1 <= fst (getWave L wave_type t hertz fmAmplitude fmHertz n) <= 1 /\
  (wave_type = SQUARE ->
   fst (getWave L wave_type t hertz fmAmplitude fmHertz n) = 1 \/
   fst (getWave L wave_type t hertz fmAmplitude fmHertz n) = -1).
Proof.
  intros (Hsin & Hpi & Hasin & Hmax & Hrand) Hsaw.
  destruct wave_type; try congruence;
    unfold getWave, bind, ret, rand; cbn [fst].
  - split; [apply Hsin | discriminate].
  - destruct (fgt _ 0); split; try lra; auto.
  - split; [| discriminate].
    specialize (Hasin (sinf L (H2W L hertz * t
                               + fmAmplitude * hertz * sinf L (H2W L fmHertz * t)))).
    split.
    + apply Qle_shift_div_l; lra.
    + apply Qle_shift_div_r; lra.
  - split; [| discriminate].
    apply noise_in_range; [exact Hmax | apply Hrand].
Qed.

Lemma waves_in_unit_range_witness :
  sane_libm toy_libm /\ TRIANGLE <> SAW /\
  -1 <= fst (getWave toy_libm TRIANGLE 0.25 440 0.001 5 O) <= 1 /\
  (TRIANGLE = SQUARE ->
   fst (getWave toy_libm TRIANGLE 0.25 440 0.001 5 O) = 1 \/
   fst (getWave toy_libm TRIANGLE 0.25 440 0.001 5 O) = -1).
Proof.
  assert (N : TRIANGLE <> SAW) by discriminate.
  exact (conj toy_libm_sane (conj N
           (waves_in_unit_range toy_libm TRIANGLE 0.25 440 0.001 5 O
              toy_libm_sane N))).
Defined.

Lemma square_in_range (b : bool) : -1 <= (if b then 1 else -1) <= 1.
Proof. destruct b; lra. Qed.

(** A product of a factor in [0, ...) and a mix within [-b, b]. *)
Lemma scaled_mix_bound (a mix b : float) :
  0 <= a -> - b <= mix <= b -> - (b * a) <= a * mix <= b * a.
Proof.
  intros Ha [Hlo Hhi].
  assert (H1 : 0 <= a * (b - mix)) by (apply Qmult_le_0_compat; lra).
  assert (H2 : 0 <= a * (mix + b)) by (apply Qmult_le_0_compat; lra).
  lra.
Qed.

(** With a sane C library the bell sounds within 1.75 times its envelope
    amplitude, and the harmonica within 1.8 times, in size. *)
Theorem bell_and_harmonica_within_their_mix
    (L : LibM) (hertz t timeOn timeOff : float) (n : nat) :
  sane_libm L ->
  let bell := fst (fst (sound (Bell L) hertz t timeOn timeOff n)) in
  let harmonica := fst (fst (sound (Harmonica L) hertz t timeOn timeOff n)) in
  - (1.75 * getAmplitude Bell_envelope t timeOn timeOff) <= bell
    <= 1.75 * getAmplitude Bell_envelope t timeOn timeOff /\
  - (1.8 * getAmplitude Harmonica_envelope t timeOn timeOff) <= harmonica
    <= 1.8 * getAmplitude Harmonica_envelope t timeOn timeOff.
Proof.
  intros Hsane. cbv zeta.
  pose proof Hsane as (Hsin & Hpi & Hasin & Hmax & Hrand).
  split.
  - pose proof (getAmplitude_nonneg Bell_envelope t timeOn timeOff) as Ha.
    unfold sound, Bell, Bell_sound, getWave, bind, ret.
    cbn [fst snd volume envelope vsound].
    match goal with
    | |- _ <= _ * ?a * (1.0 * sinf L ?x + 0.5 * sinf L ?y + 0.25 * sinf L ?z)
         <= _ =>
        pose proof (Hsin x) as Hx; pose proof (Hsin y) as Hy;
        pose proof (Hsin z) as Hz;
        pose proof (scaled_mix_bound a
                      (1.0 * sinf L x + 0.5 * sinf L y + 0.25 * sinf L z)
                      1.75 Ha) as Hb;
        generalize dependent (sinf L x); generalize dependent (sinf L y);
        generalize dependent (sinf L z)
    end.
    intros s3 Hs3 s2 Hs2 s1 Hs1 Hb.
    assert (Hm : - 1.75 <= 1.0 * s1 + 0.5 * s2 + 0.25 * s3 <= 1.75) by lra.
    specialize (Hb Hm). lra.
  - pose proof (getAmplitude_nonneg Harmonica_envelope t timeOn timeOff) as Ha.
    pose proof (noise_in_range (rand_seq L n) (RAND_MAX L) Hmax (Hrand n)) as Hn.
    unfold sound, Harmonica, Harmonica_sound, getWave, bind, ret, rand.
    cbn [fst snd volume envelope vsound].
    match goal with
    | |- _ <= _ * ?a * (1.0 * ?w1 + 0.5 * ?w2 + 0.25 * ?w3 + 0.05 * ?w4) <= _ =>
        assert (H1 : -1 <= w1 <= 1) by apply square_in_range;
        assert (H2 : -1 <= w2 <= 1) by apply square_in_range;
        assert (H3 : -1 <= w3 <= 1) by apply square_in_range;
        set (x1 := w1) in *; set (x2 := w2) in *; set (x3 := w3) in *;
        set (x4 := w4) in *
    end.
    clearbody x1 x2 x3 x4.
    assert (Hm : - 1.8 <= 1.0 * x1 + 0.5 * x2 + 0.25 * x3 + 0.05 * x4 <= 1.8)
      by lra.
    pose proof (scaled_mix_bound _ _ 1.8 Ha Hm) as Hb. lra.
Qed.

Lemma bell_and_harmonica_within_their_mix_witness :
  sane_libm toy_libm /\
  let bell := fst (fst (sound (Bell toy_libm) 220 1.01 1 0 O)) in
  let harmonica := fst (fst (sound (Harmonica toy_libm) 220 1.01 1 0 O)) in
  - (1.75 * getAmplitude Bell_envelope 1.01 1 0) <= bell
    <= 1.75 * getAmplitude Bell_envelope 1.01 1 0 /\
  - (1.8 * getAmplitude Harmonica_envelope 1.01 1 0) <= harmonica
    <= 1.8 * getAmplitude Harmonica_envelope 1.01 1 0.
Proof.
  exact (conj toy_libm_sane
           (bell_and_harmonica_within_their_mix toy_libm 220 1.01 1 0 O
              toy_libm_sane)).
Defined.

(** ** What the audio callback leaves of the registry *)

Lemma audio_callback_with_notes_witness :
  notes quiet_pair <> [] /\ (0 <= sample_nr quiet_pair)%Z /\ (0 <= 1024)%Z /\
  (sample_nr quiet_pair + Z.quot 1024 2 < 2147483648)%Z /\
  let out := fst (audio_callback quiet_pair 1024 O) in
  length (fst out) = Z.to_nat (Z.quot 1024 2) /\
  sample_nr (snd out) = (sample_nr quiet_pair + Z.quot 1024 2)%Z.
Proof.
  assert (A : notes quiet_pair <> []) by discriminate.
  assert (B : (0 <= sample_nr quiet_pair)%Z) by (simpl; lia).
  assert (C : (0 <= 1024)%Z) by lia.
  assert (D : (sample_nr quiet_pair + Z.quot 1024 2 < 2147483648)%Z)
    by (vm_compute; reflexivity).
  exact (conj A (conj B (conj C (conj D
           (audio_callback_with_notes quiet_pair 1024 O A B C D))))).
Defined.

Lemma same_but_active_refl (a : Note) : same_but_active a a.
Proof. unfold same_but_active. auto. Qed.

Lemma same_but_active_trans (a b c : Note) :
  same_but_active a b -> same_but_active b c -> same_but_active a c.
Proof.
  unfold same_but_active.
  intros (H1 & H2 & H3 & H4 & H5) (K1 & K2 & K3 & K4 & K5).
  repeat split; congruence.
Qed.

Lemma Forall2_same_but_active_refl (ns : list Note) :
  Forall2 same_but_active ns ns.
Proof.
  induction ns; constructor; [apply same_but_active_refl | assumption].
Qed.

Lemma Forall2_same_but_active_trans (xs : list Note) :
  forall ys zs : list Note,
    Forall2 same_but_active xs ys -> Forall2 same_but_active ys zs ->
    Forall2 same_but_active xs zs.
Proof.
  induction xs as [| x xs IH]; intros ys zs Hxy Hyz.
  - inversion Hxy; subst. inversion Hyz; subst. constructor.
  - inversion Hxy as [| ? y ? ys' Hx Hxs]; subst.
    inversion Hyz as [| ? z ? zs' Hy Hys]; subst.
    constructor; [eapply same_but_active_trans; eassumption | eauto].
Qed.

Lemma render_loop_same_notes (k : nat) :
  forall (data : AudioCustomData) (n : nat),
    Forall2 same_but_active (notes data)
      (notes (snd (fst (render_loop k data n)))).
Proof.
  induction k as [| k IH]; intros data n; simpl.
  - apply Forall2_same_but_active_refl.
  - unfold bind.
    pose proof (mix_notes_same_notes
                  (inject_Z (sample_nr data) / inject_Z SAMPLE_RATE)
                  (notes data) 0%Z n) as Hmix.
    destruct (mix_notes _ (notes data) 0%Z n) as [[b ns] n1].
    specialize (IH {| sample_nr := int_wrap (sample_nr data + 1); notes := ns |} n1).
    destruct (render_loop k _ n1) as [[buf d] n2]. simpl in *.
    eapply Forall2_same_but_active_trans; eassumption.
Qed.

Lemma silence_loop_notes (k : nat) :
  forall data : AudioCustomData,
    notes (snd (silence_loop k data)) = notes data.
Proof.
  induction k as [| k IH]; intros data; simpl.
  - reflexivity.
  - specialize (IH {| sample_nr := int_wrap (sample_nr data + 1);
                      notes := notes data |}).
    destruct (silence_loop k _) as [buf d]. simpl in *. exact IH.
Qed.

(** Whatever the buffer size and the instruments, the audio callback
    neither adds, removes nor reorders notes, and changes nothing of a note
    but its flag [active]: ids, frequencies, [timeOn], [timeOff] and
    instruments are as before. *)
Theorem audio_callback_changes_only_active
    (data : AudioCustomData) (bytes : Z) (n : nat) :
  Forall2 same_but_active (notes data)
    (notes (snd (fst (audio_callback data bytes n)))).
Proof.
  unfold audio_callback, bind.
  pose proof (render_loop_same_notes (Z.to_nat (Z.quot bytes 2)) data n) as H.
  destruct (render_loop _ data n) as [[buf d] n1]. cbn [fst snd] in *.
  destruct (notes d) as [| x xs] eqn:Hd; unfold ret; cbn [fst snd].
  - rewrite silence_loop_notes, Hd. exact H.
  - rewrite Hd. exact H.
Qed.

(** A call for less than one sample ([bytes < 2], negative sizes included)
    writes nothing, leaves the data as they are and draws no random
    number. *)
Theorem audio_callback_without_room
    (data : AudioCustomData) (bytes : Z) (n : nat) :
  (bytes < 2)%Z ->
  audio_callback data bytes n = ([], data, n).
Proof.
  intros Hbytes. unfold audio_callback, bind.
  assert (Hlen : Z.to_nat (Z.quot bytes 2) = O).
  { destruct (Z.le_gt_cases 0 bytes) as [Hpos | Hneg].
    - rewrite Z.quot_small by lia. reflexivity.
    - assert (Z.quot bytes 2 <= 0)%Z by (apply Z.quot_le_upper_bound; lia).
      lia. }
  rewrite Hlen. cbn [render_loop]. unfold ret.
  destruct (notes data); reflexivity.
Qed.

Lemma audio_callback_without_room_witness :
  (1 < 2)%Z /\ audio_callback quiet_pair 1 O = ([], quiet_pair, O).
Proof.
  assert (H : (1 < 2)%Z) by lia.
  exact (conj H (audio_callback_without_room quiet_pair 1 O H)).
Defined.

(** ** The flags the audio callback leaves *)

Lemma stock_sound_alive (L : LibM) (i : Instrument)
    (hertz t timeOn timeOff : float) (n : nat) :
  stock_instrument L i ->
  snd (fst (sound i hertz t timeOn timeOff n))
  = fgt (getAmplitude (envelope i) t timeOn timeOff) 0.0.
Proof. intros [-> | [-> | ->]]; reflexivity. Qed.

Lemma mix_notes_refreshes (L : LibM) (time : float) (ns : list Note) :
  forall (buffer_i : Z) (n : nat),
    Forall (fun m => stock_instrument L (instrument m)) ns ->
    snd (fst (mix_notes time ns buffer_i n)) = refresh_active time ns.
Proof.
  induction ns as [| m rest IH]; intros buffer_i n Hstock; simpl.
  - reflexivity.
  - inversion Hstock as [| ? ? Hm Hrest]; subst.
    unfold bind.
    pose proof (stock_sound_alive L (instrument m) (freq m) time (timeOn m)
                  (timeOff m) n Hm) as Halive.
    destruct (sound (instrument m) (freq m) time (timeOn m) (timeOff m) n)
      as [[result alive] n1].
    specialize (IH (Sint16_add buffer_i
                      (Sint16_of_float (inject_Z (Z.quot AMPLITUDE 4) * result)))
                   n1 Hrest).
    destruct (mix_notes time rest _ n1) as [[b rest'] n2].
    simpl in *. subst alive. rewrite IH. reflexivity.
Qed.

Lemma refresh_active_again (t1 t2 : float) (ns : list Note) :
  refresh_active t2 (refresh_active t1 ns) = refresh_active t2 ns.
Proof.
  unfold refresh_active. rewrite map_map. apply map_ext. reflexivity.
Qed.

Lemma refresh_active_stock (L : LibM) (time : float) (ns : list Note) :
  Forall (fun m => stock_instrument L (instrument m)) ns ->
  Forall (fun m => stock_instrument L (instrument m)) (refresh_active time ns).
Proof.
  unfold refresh_active. intros H. apply Forall_map.
  eapply Forall_impl; [| exact H]. intros m Hm. exact Hm.
Qed.

Lemma render_loop_refreshes (L : LibM) (k : nat) :
  forall (data : AudioCustomData) (n : nat),
    Forall (fun m => stock_instrument L (instrument m)) (notes data) ->
    (0 <= sample_nr data)%Z ->
    (sample_nr data + Z.of_nat k + 1 < 2147483648)%Z ->
    notes (snd (fst (render_loop (S k) data n)))
    = refresh_active
        (inject_Z (sample_nr data + Z.of_nat k) / inject_Z SAMPLE_RATE)
        (notes data).
Proof.
  induction k as [| k IH]; intros data n Hstock Hlo Hhi.
  - cbn [render_loop]. unfold bind.
    pose proof (mix_notes_refreshes L
                  (inject_Z (sample_nr data) / inject_Z SAMPLE_RATE)
                  (notes data) 0%Z n Hstock) as Hmix.
    destruct (mix_notes _ (notes data) 0%Z n) as [[b ns] n1].
    unfold ret. cbn [fst snd notes] in *. rewrite Hmix.
    replace (sample_nr data + Z.of_nat 0)%Z with (sample_nr data) by lia.
    reflexivity.
  - remember (S k) as k1 eqn:Hk1. cbn [render_loop]. unfold bind.
    pose proof (mix_notes_refreshes L
                  (inject_Z (sample_nr data) / inject_Z SAMPLE_RATE)
                  (notes data) 0%Z n Hstock) as Hmix.
    destruct (mix_notes _ (notes data) 0%Z n) as [[b ns] n1].
    cbn [fst snd] in Hmix. subst ns k1.
    set (data1 := {| sample_nr := int_wrap (sample_nr data + 1);
                     notes := refresh_active _ (notes data) |}).
    assert (Hc : sample_nr data1 = (sample_nr data + 1)%Z)
      by (apply int_wrap_small; lia).
    specialize (IH data1 n1).
    destruct (render_loop (S k) data1 n1) as [[buf d] n2].
    unfold ret. cbn [fst snd] in *.
    rewrite IH; [| apply refresh_active_stock; exact Hstock | lia | lia].
    cbn [notes data1]. rewrite refresh_active_again, Hc.
    replace (sample_nr data + 1 + Z.of_nat k)%Z
      with (sample_nr data + Z.of_nat (S k))%Z by lia.
    reflexivity.
Qed.

(** After a call for at least one sample on a registry of the instruments
    of the program, the flag [active] of every note says whether its
    envelope is above 0 at the time of the last sample written,
    [(sample_nr + bytes/2 - 1) / SAMPLE_RATE]; what the flag was before and
    what the envelope did earlier in the buffer leave no trace. *)
Theorem active_flags_follow_last_sample
    (L : LibM) (data : AudioCustomData) (bytes : Z) (n : nat) :
  Forall (fun m => stock_instrument L (instrument m)) (notes data) ->
  (0 <= sample_nr data)%Z ->
  (2 <= bytes)%Z ->
  (sample_nr data + Z.quot bytes 2 < 2147483648)%Z ->
  notes (snd (fst (audio_callback data bytes n)))
  = refresh_active
      (inject_Z (sample_nr data + Z.quot bytes 2 - 1) / inject_Z SAMPLE_RATE)
      (notes data).
Proof.
  intros Hstock Hlo Hbytes Hhi. unfold audio_callback, bind.
  assert (Hq : (1 <= Z.quot bytes 2)%Z) by (apply Z.quot_le_lower_bound; lia).
  destruct (Z.to_nat (Z.quot bytes 2)) as [| k] eqn:Hk; [lia |].
  pose proof (render_loop_refreshes L k data n Hstock Hlo) as Hloop.
  replace (sample_nr data + Z.of_nat k)%Z
    with (sample_nr data + Z.quot bytes 2 - 1)%Z in Hloop by lia.
  specialize (Hloop ltac:(lia)).
  destruct (render_loop (S k) data n) as [[buf d] n1]. cbn [fst snd] in *.
  destruct (notes d) as [| x xs] eqn:Hd; unfold ret; cbn [fst snd].
  - rewrite silence_loop_notes, Hd. exact Hloop.
  - rewrite Hd. exact Hloop.
Qed.

Lemma active_flags_follow_last_sample_witness :
  Forall (fun m => stock_instrument toy_libm (instrument m)) (notes toy_chord) /\
  (0 <= sample_nr toy_chord)%Z /\ (2 <= 1024)%Z /\
  (sample_nr toy_chord + Z.quot 1024 2 < 2147483648)%Z /\
  notes (snd (fst (audio_callback toy_chord 1024 O)))
  = refresh_active
      (inject_Z (sample_nr toy_chord + Z.quot 1024 2 - 1) / inject_Z SAMPLE_RATE)
      (notes toy_chord).
Proof.
  assert (A : Forall (fun m => stock_instrument toy_libm (instrument m))
                (notes toy_chord))
    by (repeat constructor; unfold stock_instrument; simpl; auto).
  assert (B : (0 <= sample_nr toy_chord)%Z) by (simpl; lia).
  assert (C : (2 <= 1024)%Z) by lia.
  assert (D : (sample_nr toy_chord + Z.quot 1024 2 < 2147483648)%Z)
    by (vm_compute; reflexivity).
  exact (conj A (conj B (conj C (conj D
           (active_flags_follow_last_sample toy_libm toy_chord 1024 O
              A B C D))))).
Defined.

(** ** Random numbers *)

Lemma noiseless_sound (L : LibM) (i : Instrument)
    (hertz t timeOn timeOff : float) (n : nat) :
  noiseless_instrument L i ->
  sound i hertz t timeOn timeOff n = (fst (sound i hertz t timeOn timeOff O), n).
Proof. intros [-> | ->]; reflexivity. Qed.

Lemma same_instruments (P : Instrument -> Prop) (xs : list Note) :
  forall ys : list Note,
    Forall2 same_but_active xs ys ->
    Forall (fun m => P (instrument m)) xs ->
    Forall (fun m => P (instrument m)) ys.
Proof.
  induction xs as [| x xs IH]; intros ys H2 H; inversion H2; subst.
  - constructor.
  - inversion H; subst. constructor; [| apply IH; assumption].
    match goal with
    | Hs : same_but_active x _ |- _ =>
        destruct Hs as (_ & _ & _ & _ & Hi); rewrite <- Hi; assumption
    end.
Qed.

Lemma mix_notes_noiseless (L : LibM) (time : float) (ns : list Note) :
  forall (buffer_i : Z) (n : nat),
    Forall (fun m => noiseless_instrument L (instrument m)) ns ->
    mix_notes time ns buffer_i n = (fst (mix_notes time ns buffer_i O), n).
Proof.
  induction ns as [| m rest IH]; intros buffer_i n Hns; simpl.
  - reflexivity.
  - inversion Hns as [| ? ? Hm Hrest]; subst. unfold bind.
    rewrite (noiseless_sound L _ _ _ _ _ n Hm).
    pose proof (noiseless_sound L _ (freq m) time (timeOn m) (timeOff m) O Hm)
      as H0.
    destruct (sound (instrument m) (freq m) time (timeOn m) (timeOff m) O)
      as [[result alive] n0].
    cbn [fst] in *. injection H0 as ->.
    rewrite (IH _ n Hrest).
    destruct (mix_notes time rest _ O) as [[b rest'] n2]. reflexivity.
Qed.

Lemma render_loop_noiseless (L : LibM) (k : nat) :
  forall (data : AudioCustomData) (n : nat),
    Forall (fun m => noiseless_instrument L (instrument m)) (notes data) ->
    render_loop k data n = (fst (render_loop k data O), n).
Proof.
  induction k as [| k IH]; intros data n Hns; simpl.
  - reflexivity.
  - unfold bind.
    rewrite (mix_notes_noiseless L _ _ _ n Hns).
    pose proof (mix_notes_noiseless L
                  (inject_Z (sample_nr data) / inject_Z SAMPLE_RATE)
                  (notes data) 0%Z O Hns) as H0.
    pose proof (mix_notes_same_notes
                  (inject_Z (sample_nr data) / inject_Z SAMPLE_RATE)
                  (notes data) 0%Z O) as Hsame.
    destruct (mix_notes _ (notes data) 0%Z O) as [[b ns] n0].
    cbn [fst snd] in *. injection H0 as ->.
    assert (Hns' : Forall (fun m => noiseless_instrument L (instrument m)) ns)
      by (eapply same_instruments; eassumption).
    rewrite (IH {| sample_nr := int_wrap (sample_nr data + 1); notes := ns |}
               n Hns').
    destruct (render_loop k _ O) as [[buf d] n2]. reflexivity.
Qed.

(** While the registry holds only bells and saws, the audio callback never
    calls [rand()]: the count of calls is as before, and the samples and the
    flags do not depend on it. *)
Theorem audio_callback_draws_no_noise
    (L : LibM) (data : AudioCustomData) (bytes : Z) (n : nat) :
  Forall (fun m => noiseless_instrument L (instrument m)) (notes data) ->
  audio_callback data bytes n = (fst (audio_callback data bytes O), n).
Proof.
  intros Hns. unfold audio_callback, bind.
  rewrite (render_loop_noiseless L _ data n Hns).
  destruct (render_loop _ data O) as [[buf d] n0]. cbn [fst].
  destruct (notes d); reflexivity.
Qed.

Lemma audio_callback_draws_no_noise_witness :
  Forall (fun m => noiseless_instrument toy_libm (instrument m))
    (notes toy_chord) /\
  audio_callback toy_chord 1024 7%nat
  = (fst (audio_callback toy_chord 1024 O), 7%nat).
Proof.
  assert (A : Forall (fun m => noiseless_instrument toy_libm (instrument m))
                (notes toy_chord))
    by (repeat constructor; unfold noiseless_instrument; simpl; auto).
  exact (conj A (audio_callback_draws_no_noise toy_libm toy_chord 1024 7%nat A)).
Defined.

(** The harmonica calls [rand()] exactly once for each sample of each of
    its notes. *)
Lemma harmonica_sound_draws_once (L : LibM)
    (hertz t timeOn timeOff : float) (n : nat) :
  snd (sound (Harmonica L) hertz t timeOn timeOff n) = S n.
Proof. reflexivity. Qed.

(** ** Truncation and headroom *)

Lemma ftrunc_small (x : float) : -1 < x < 1 -> ftrunc x = 0%Z.
Proof.
  destruct x as [num den]. unfold Qlt, ftrunc. simpl. intros [Hlo Hhi].
  destruct (Z.le_gt_cases 0 num) as [Hpos | Hneg].
  - apply Z.quot_small. lia.
  - replace num with (- - num)%Z by lia.
    rewrite Z.quot_opp_l by lia.
    rewrite Z.quot_small by lia. reflexivity.
Qed.

Lemma ftrunc_bound (x : float) (b : Z) :
  (0 <= b)%Z -> - inject_Z b <= x <= inject_Z b -> (- b <= ftrunc x <= b)%Z.
Proof.
  destruct x as [num den]. unfold Qle, ftrunc. simpl. intros Hb [Hlo Hhi].
  destruct (Z.le_gt_cases 0 num) as [Hpos | Hneg].
  - rewrite Z.quot_div_nonneg by lia. split.
    + pose proof (Z.div_pos num (Z.pos den)). lia.
    + apply Z.div_le_upper_bound; lia.
  - replace num with (- - num)%Z by lia.
    rewrite Z.quot_opp_l by lia.
    rewrite Z.quot_div_nonneg by lia.
    assert (0 <= - num / Z.pos den <= b)%Z.
    { split; [apply Z.div_pos; lia | apply Z.div_le_upper_bound; lia]. }
    lia.
Qed.

Lemma Zsum_bound (b : Z) (l : list Z) :
  Forall (fun z => (- b <= z <= b)%Z) l ->
  (- (Z.of_nat (length l) * b) <= Zsum l <= Z.of_nat (length l) * b)%Z.
Proof.
  induction 1 as [| z l Hz Hl IH]; simpl Zsum; simpl length.
  - lia.
  - rewrite Nat2Z.inj_succ. lia.
Qed.

(** Notes whose results stay below one step of the 16-bit scale once
    multiplied by the headroom factor (below 1/5000 in size) leave the
    sample at 0, however many they are: each one is truncated to 0 before
    the addition. *)
Theorem quiet_notes_leave_silence
    (time : float) (ns : list Note) (n : nat) :
  Forall (fun r => -1 < headroom * r < 1) (fst (sound_results time ns n)) ->
  fst (fst (mix_notes time ns 0%Z n)) = 0%Z.
Proof.
  intros Hquiet. rewrite mix_notes_value by lia.
  induction Hquiet as [| r results Hr Hrest IH]; simpl.
  - reflexivity.
  - unfold Sint16_of_float at 1. rewrite (ftrunc_small _ Hr).
    exact IH.
Qed.

Lemma quiet_notes_leave_silence_witness :
  Forall (fun r => -1 < headroom * r < 1)
    (fst (sound_results 0 (notes quiet_pair) O)) /\
  fst (fst (mix_notes 0 (notes quiet_pair) 0%Z O)) = 0%Z.
Proof.
  assert (H : Forall (fun r => -1 < headroom * r < 1)
                (fst (sound_results 0 (notes quiet_pair) O)))
    by (repeat constructor; vm_compute; reflexivity).
  exact (conj H (quiet_notes_leave_silence 0 (notes quiet_pair) O H)).
Defined.

(** Up to three notes whose results are within 1.8 in size are mixed
    without wrap-around: the sample is the plain sum of the truncated
    scaled results, and it is within 27000 in size. *)
Theorem three_notes_never_wrap
    (time : float) (ns : list Note) (n : nat) :
  (length ns <= 3)%nat ->
  Forall (fun r => - (1.8) <= r <= 1.8) (fst (sound_results time ns n)) ->
  let sample := fst (fst (mix_notes time ns 0%Z n)) in
  sample
  = Zsum (map (fun r => ftrunc (headroom * r)) (fst (sound_results time ns n)))
  /\ (- 27000 <= sample <= 27000)%Z.
Proof.
  intros Hlen Hres. cbv zeta. rewrite mix_notes_value by lia.
  assert (Hcount : (length (fst (sound_results time ns n)) <= 3)%nat).
  { clear Hres. revert n Hlen.
    assert (Hgen : forall n, length (fst (sound_results time ns n)) = length ns).
    { induction ns as [| m rest IH]; intros n; simpl; [reflexivity |].
      unfold bind.
      destruct (sound (instrument m) (freq m) time (timeOn m) (timeOff m) n)
        as [[r a] n1].
      specialize (IH n1).
      destruct (sound_results time rest n1) as [rs n2]. simpl in *.
      now rewrite IH. }
    intros n Hlen. rewrite Hgen. exact Hlen. }
  generalize dependent (fst (sound_results time ns n)). clear ns Hlen.
  intros results Hres Hcount.
  assert (Hsame : map (fun r => Sint16_of_float (headroom * r)) results
                  = map (fun r => ftrunc (headroom * r)) results
                  /\ Forall (fun z => (- 9000 <= z <= 9000)%Z)
                       (map (fun r => ftrunc (headroom * r)) results)).
  { clear Hcount. induction Hres as [| r rs Hr Hrs IH]; simpl.
    - split; [reflexivity | constructor].
    - destruct IH as [IH1 IH2].
      assert (Hb : (- 9000 <= ftrunc (headroom * r) <= 9000)%Z).
      { assert (Hq : - inject_Z 9000 <= headroom * r <= inject_Z 9000).
        { unfold headroom. change (inject_Z (Z.quot AMPLITUDE 4)) with 5000.
          change (inject_Z 9000) with 9000. lra. }
        pose proof (ftrunc_bound (headroom * r) 9000 ltac:(lia) Hq). lia. }
      split; [| constructor; assumption].
      rewrite IH1. unfold Sint16_of_float.
      rewrite Sint16_wrap_small by lia. reflexivity. }
  destruct Hsame as [Hsame Hbound]. rewrite Hsame.
  pose proof (Zsum_bound 9000 _ Hbound) as Hsum.
  rewrite length_map in Hsum.
  assert (Hr : (- 27000
                <= Zsum (map (fun r => ftrunc (headroom * r)) results)
                <= 27000)%Z) by lia.
  rewrite Z.add_0_l, Sint16_wrap_small by lia.
  split; [reflexivity | exact Hr].
Qed.

Lemma three_notes_never_wrap_witness :
  (length (notes quiet_pair) <= 3)%nat /\
  Forall (fun r => - (1.8) <= r <= 1.8)
    (fst (sound_results 0 (notes quiet_pair) O)) /\
  let sample := fst (fst (mix_notes 0 (notes quiet_pair) 0%Z O)) in
  sample
  = Zsum (map (fun r => ftrunc (headroom * r))
            (fst (sound_results 0 (notes quiet_pair) O)))
  /\ (- 27000 <= sample <= 27000)%Z.
Proof.
  assert (A : (length (notes quiet_pair) <= 3)%nat) by (simpl; lia).
  assert (B : Forall (fun r => - (1.8) <= r <= 1.8)
                (fst (sound_results 0 (notes quiet_pair) O)))
    by (repeat constructor; vm_compute; discriminate).
  exact (conj A (conj B (three_notes_never_wrap 0 (notes quiet_pair) O A B))).
Defined.

(** ** The key map *)

Lemma scancode_eqb_refl (k : SDL_Scancode) : scancode_eqb k k = true.
Proof. apply Z.eqb_refl. Qed.

Lemma scancode_eqb_trans_l (a b c : SDL_Scancode) :
  scancode_eqb a b = true -> scancode_eqb c a = scancode_eqb c b.
Proof.
  unfold scancode_eqb. intros H. apply Z.eqb_eq in H. now rewrite H.
Qed.

(** [m[k] = v] and [m.find]: the key assigned is found with its new value,
    every other key as before. *)
Lemma map_find_assign (m : KeyMap) (k k' : SDL_Scancode) (v : Note) :
  map_find (map_assign m k v) k'
  = if scancode_eqb k' k then Some v else map_find m k'.
Proof.
  induction m as [| [k0 v0] m IH]; simpl.
  - reflexivity.
  - destruct (scancode_eqb k k0) eqn:E; simpl.
    + rewrite (scancode_eqb_trans_l k k0 k' E).
      destruct (scancode_eqb k' k0); reflexivity.
    + rewrite IH.
      destruct (scancode_eqb k' k0) eqn:E0; [| reflexivity].
      destruct (scancode_eqb k' k) eqn:E1; [| reflexivity].
      unfold scancode_eqb in *.
      apply Z.eqb_eq in E0, E1. apply Z.eqb_neq in E. congruence.
Qed.

Lemma assign_keys_find (L : LibM) (table : list (SDL_Scancode * Z)) :
  forall (note_id : Z) (note : Note) (m : KeyMap) (k : SDL_Scancode),
    map_find (assign_keys L table note_id note m) k
    = match map_find (assign_keys L table note_id note []) k with
      | Some found => Some found
      | None => map_find m k
      end.
Proof.
  induction table as [| [sc e] table IH]; intros note_id note m k.
  - reflexivity.
  - cbn [assign_keys]. rewrite IH.
    rewrite (IH _ _ (map_assign [] sc _) k).
    destruct (map_find (assign_keys L table _ _ []) k); [reflexivity |].
    rewrite map_find_assign. cbn [map_assign map_find].
    destruct (scancode_eqb k sc); reflexivity.
Qed.

(** [initializeKeyMap] on a map that has bindings already: the bindings of
    its thirteen keys are replaced, every other binding is kept. *)
Theorem initializeKeyMap_overrides_its_keys_only
    (L : LibM) (key_to_note : KeyMap) (i : Instrument) (k : SDL_Scancode) :
  map_find (initializeKeyMap L key_to_note i) k
  = match map_find (initializeKeyMap L [] i) k with
    | Some note => Some note
    | None => map_find key_to_note k
    end.
Proof. unfold initializeKeyMap. apply assign_keys_find. Qed.

(** The key map of [initializeKeyMap] on the empty map, entry by entry. *)
Lemma initializeKeyMap_entries (L : LibM) (i : Instrument) :
  initializeKeyMap L [] i
  = map (fun entry =>
           (fst (fst entry),
            {| id := snd entry;
               freq := 440.0 * powf L 2 (inject_Z (snd (fst entry)) / 12);
               timeOn := 0.0; timeOff := 0.0; active := false;
               instrument := i |}))
        (combine key_table [0; 1; 2; 3; 4; 5; 6; 7; 8; 9; 10; 11; 12]%Z).
Proof. reflexivity. Qed.

(** What a key finds in the map of [initializeKeyMap]: a note with an id
    from 0 to 12, which names the key, the frequency of [id - 12] semitones
    from 440 Hz, both times 0, not active, and the instrument given. *)
Lemma initializeKeyMap_find (L : LibM) (i : Instrument)
    (k : SDL_Scancode) (note : Note) :
  map_find (initializeKeyMap L [] i) k = Some note ->
  (0 <= id note <= 12)%Z /\
  key_of_id (id note) = Some (scancode_number k) /\
  freq note = 440.0 * powf L 2 (inject_Z (id note - 12) / 12) /\
  timeOn note = 0.0 /\ timeOff note = 0.0 /\ active note = false /\
  instrument note = i.
Proof.
  rewrite initializeKeyMap_entries.
  cbn [key_table combine map map_find fst snd].
  unfold scancode_eqb.
  repeat match goal with
         | |- context [(scancode_number k =? ?c)%Z] =>
             let Hk := fresh "Hk" in
             destruct (Z.eqb_spec (scancode_number k) c) as [Hk | Hk];
             [intros Hf; injection Hf as <-; cbn [id freq timeOn timeOff
                                                    active instrument];
              rewrite Hk; repeat split; solve [reflexivity | lia] |]
         end.
  discriminate.
Qed.

(** Every key of the map of [initializeKeyMap] finds the template of a
    fresh note (the frequency of its semitone, both times 0, not active,
    the instrument given), and two keys that find the same note id are the
    same key: releasing a key never touches the notes of another one. *)
Theorem keys_find_templates_with_ids_of_their_own
    (L : LibM) (i : Instrument) (k1 k2 : SDL_Scancode) (n1 n2 : Note) :
  map_find (initializeKeyMap L [] i) k1 = Some n1 ->
  map_find (initializeKeyMap L [] i) k2 = Some n2 ->
  (freq n1 = 440.0 * powf L 2 (inject_Z (id n1 - 12) / 12) /\
   (0 <= id n1 <= 12)%Z /\
   timeOn n1 = 0.0 /\ timeOff n1 = 0.0 /\ active n1 = false /\
   instrument n1 = i) /\
  (id n1 = id n2 -> scancode_number k1 = scancode_number k2).
Proof.
  intros H1 H2.
  destruct (initializeKeyMap_find L i k1 n1 H1)
    as (Hid1 & Hkey1 & Hfreq & Hon & Hoff & Hact & Hins).
  destruct (initializeKeyMap_find L i k2 n2 H2) as (_ & Hkey2 & _).
  split; [repeat split; assumption || lia |].
  intros Hsame. rewrite Hsame in Hkey1. congruence.
Qed.

Lemma keys_find_templates_with_ids_of_their_own_witness :
  map_find (initializeKeyMap toy_libm [] (Bell toy_libm)) SDL_SCANCODE_COMMA
  = Some comma_template /\
  map_find (initializeKeyMap toy_libm [] (Bell toy_libm)) (SDL_SCANCODE_other 54)
  = Some comma_template /\
  (freq comma_template
   = 440.0 * powf toy_libm 2 (inject_Z (id comma_template - 12) / 12) /\
   (0 <= id comma_template <= 12)%Z /\
   timeOn comma_template = 0.0 /\ timeOff comma_template = 0.0 /\
   active comma_template = false /\
   instrument comma_template = Bell toy_libm) /\
  (id comma_template = id comma_template ->
   scancode_number SDL_SCANCODE_COMMA
   = scancode_number (SDL_SCANCODE_other 54)).
Proof.
  assert (F1 : map_find (initializeKeyMap toy_libm [] (Bell toy_libm))
                 SDL_SCANCODE_COMMA = Some comma_template) by reflexivity.
  assert (F2 : map_find (initializeKeyMap toy_libm [] (Bell toy_libm))
                 (SDL_SCANCODE_other 54) = Some comma_template) by reflexivity.
  exact (conj F1 (conj F2
           (keys_find_templates_with_ids_of_their_own toy_libm (Bell toy_libm)
              SDL_SCANCODE_COMMA (SDL_SCANCODE_other 54)
              comma_template comma_template F1 F2))).
Defined.

(** The keys the map of [initializeKeyMap] knows are the thirteen of its
    table and no other: every other scancode finds nothing. *)
Theorem only_the_table_keys_are_mapped
    (L : LibM) (i : Instrument) (k : SDL_Scancode) :
  map_find (initializeKeyMap L [] i) k = None
  <-> ~ In (scancode_number k)
           (map (fun entry => scancode_number (fst entry)) key_table).
Proof.
  rewrite initializeKeyMap_entries.
  cbn [key_table combine map map_find fst snd].
  unfold scancode_eqb.
  repeat match goal with
         | |- context [(scancode_number k =? ?c)%Z] =>
             let Hk := fresh "Hk" in
             destruct (Z.eqb_spec (scancode_number k) c) as [Hk | Hk];
             [split; [discriminate |];
              intros Hn; exfalso; apply Hn; rewrite Hk;
              cbn [In]; auto 20 |]
         end.
  split; [| reflexivity].
  intros _ Hin. cbn [In] in Hin.
  repeat match goal with
         | H : _ \/ _ |- _ => destruct H as [H | H]
         end;
    solve [contradiction | congruence].
Qed.

(** ** The events *)

Lemma same_but_timeOff_refl (a : Note) : same_but_timeOff a a.
Proof. unfold same_but_timeOff. auto. Qed.

Lemma same_but_timeOff_trans (a b c : Note) :
  same_but_timeOff a b -> same_but_timeOff b c -> same_but_timeOff a c.
Proof.
  unfold same_but_timeOff.
  intros (H1 & H2 & H3 & H4 & H5) (K1 & K2 & K3 & K4 & K5).
  repeat split; congruence.
Qed.

Lemma Forall2_same_but_timeOff_refl (ns : list Note) :
  Forall2 same_but_timeOff ns ns.
Proof.
  induction ns; constructor; [apply same_but_timeOff_refl | assumption].
Qed.

Lemma Forall2_same_but_timeOff_trans (xs : list Note) :
  forall ys zs : list Note,
    Forall2 same_but_timeOff xs ys -> Forall2 same_but_timeOff ys zs ->
    Forall2 same_but_timeOff xs zs.
Proof.
  induction xs as [| x xs IH]; intros ys zs Hxy Hyz.
  - inversion Hxy; subst. inversion Hyz; subst. constructor.
  - inversion Hxy as [| ? y ? ys' Hx Hxs]; subst.
    inversion Hyz as [| ? z ? zs' Hy Hys]; subst.
    constructor; [eapply same_but_timeOff_trans; eassumption | eauto].
Qed.

Lemma release_notes_same (note_id : Z) (sound_time : float) (ns : list Note) :
  Forall2 same_but_timeOff ns (release_notes note_id sound_time ns).
Proof.
  induction ns as [| m rest IH]; simpl; constructor; [| exact IH].
  destruct (id m =? note_id)%Z; unfold same_but_timeOff; simpl; auto.
Qed.

(** One event: the clock stays, the notes there stay in place with at most
    a new [timeOff], at most one note comes after them, and [quit] is never
    taken back. *)
Lemma handle_event_effect (key_to_note : KeyMap)
    (data : AudioCustomData) (q : bool) (event : SDL_Event) :
  let st' := handle_event key_to_note (data, q) event in
  sample_nr (fst st') = sample_nr data /\
  (q = true -> snd st' = true) /\
  exists kept added : list Note,
    notes (fst st') = kept ++ added /\
    Forall2 same_but_timeOff (notes data) kept /\
    (length added <= 1)%nat.
Proof.
  cbv zeta. unfold handle_event.
  assert (Hid : exists kept added : list Note,
             notes data = kept ++ added /\
             Forall2 same_but_timeOff (notes data) kept /\
             (length added <= 1)%nat).
  { exists (notes data), []. rewrite app_nil_r.
    split; [reflexivity | split;
      [apply Forall2_same_but_timeOff_refl | simpl; lia]]. }
  assert (Hidle : sample_nr data = sample_nr data /\
                  (q = true -> q = true) /\
                  exists kept added : list Note,
                    notes data = kept ++ added /\
                    Forall2 same_but_timeOff (notes data) kept /\
                    (length added <= 1)%nat)
    by (split; [reflexivity | split; [auto | exact Hid]]).
  destruct event as [| scancode [|] | scancode |]; cbn [fst snd].
  - split; [reflexivity | split; [reflexivity | exact Hid]].
  - exact Hidle.
  - destruct (map_find key_to_note scancode) as [note |];
      cbn [fst snd notes sample_nr]; [| exact Hidle].
    split; [reflexivity | split; [auto |]].
    eexists (notes data), [_].
    split; [reflexivity | split;
      [apply Forall2_same_but_timeOff_refl | simpl; lia]].
  - destruct (map_find key_to_note scancode) as [found |];
      cbn [fst snd notes sample_nr]; [| exact Hidle].
    split; [reflexivity | split; [auto |]].
    eexists _, []. rewrite app_nil_r.
    split; [reflexivity | split; [apply release_notes_same | simpl; lia]].
  - exact Hidle.
Qed.

(** Whatever the events of a turn, handling them never moves the clock,
    never removes or reorders a note, never changes the id, the frequency,
    [timeOn], the flag [active] or the instrument of a note that is there,
    adds at most one note per event, behind the others, and never takes
    [quit] back. *)
Theorem events_only_append_and_release
    (key_to_note : KeyMap) (events : list SDL_Event)
    (data : AudioCustomData) (q : bool) :
  let st' := fold_left (handle_event key_to_note) events (data, q) in
  sample_nr (fst st') = sample_nr data /\
  (q = true -> snd st' = true) /\
  exists kept added : list Note,
    notes (fst st') = kept ++ added /\
    Forall2 same_but_timeOff (notes data) kept /\
    (length added <= length events)%nat.
Proof.
  cbv zeta. revert data q.
  induction events as [| event events IH]; intros data q.
  - simpl. split; [reflexivity | split; [auto |]].
    exists (notes data), []. rewrite app_nil_r.
    split; [reflexivity | split;
      [apply Forall2_same_but_timeOff_refl | simpl; lia]].
  - cbn [fold_left].
    pose proof (handle_event_effect key_to_note data q event) as Hone.
    cbv zeta in Hone.
    destruct (handle_event key_to_note (data, q) event) as [data1 q1].
    cbn [fst snd] in Hone.
    destruct Hone as (Hclock & Hquit & kept1 & added1 & Hnotes1 & Hkept1 & Hlen1).
    destruct (IH data1 q1) as (Hclock' & Hquit' & kept & added & Hnotes & Hkept & Hlen).
    split; [congruence | split; [auto |]].
    rewrite Hnotes1 in Hkept.
    apply Forall2_app_inv_l in Hkept.
    destruct Hkept as (k1 & a1 & Hk1 & Ha1 & ->).
    exists k1, (a1 ++ added). split; [rewrite Hnotes, app_assoc; reflexivity |].
    split; [eapply Forall2_same_but_timeOff_trans; eassumption |].
    apply Forall2_length in Ha1.
    rewrite length_app. simpl. lia.
Qed.

(** An event that is neither a key nor a quit, the auto-repeat of a key
    held down, and a key that is not in the map (down or up), change
    nothing at all. *)
Theorem idle_events_change_nothing
    (key_to_note : KeyMap) (st : AudioCustomData * bool) (event : SDL_Event) :
  idle_event key_to_note event ->
  handle_event key_to_note st event = st.
Proof.
  destruct st as [data q]. unfold idle_event, handle_event.
  destruct event as [| scancode [|] | scancode |]; intros Hidle;
    try reflexivity; try contradiction.
  - destruct Hidle as [Hrep | Hnone]; [discriminate |].
    rewrite Hnone. reflexivity.
  - rewrite Hidle. reflexivity.
Qed.

Lemma idle_events_change_nothing_witness :
  idle_event [(SDL_SCANCODE_Z, quiet_note)] (SDL_KEYUP SDL_SCANCODE_S) /\
  handle_event [(SDL_SCANCODE_Z, quiet_note)] (quiet_pair, false)
    (SDL_KEYUP SDL_SCANCODE_S)
  = (quiet_pair, false).
Proof.
  assert (H : idle_event [(SDL_SCANCODE_Z, quiet_note)]
                (SDL_KEYUP SDL_SCANCODE_S)) by reflexivity.
  exact (conj H (idle_events_change_nothing [(SDL_SCANCODE_Z, quiet_note)]
                   (quiet_pair, false) (SDL_KEYUP SDL_SCANCODE_S) H)).
Defined.

Lemma handle_event_quit (key_to_note : KeyMap)
    (data : AudioCustomData) (q : bool) (event : SDL_Event) :
  snd (handle_event key_to_note (data, q) event)
  = match event with SDL_QUIT => true | _ => q end.
Proof.
  unfold handle_event.
  destruct event as [| scancode [|] | scancode |]; try reflexivity;
    destruct (map_find key_to_note scancode); reflexivity.
Qed.

Lemma handle_events_quit (key_to_note : KeyMap) (events : list SDL_Event) :
  forall (data : AudioCustomData) (q : bool),
    snd (fold_left (handle_event key_to_note) events (data, q)) = true
    <-> q = true \/ In SDL_QUIT events.
Proof.
  induction events as [| event events IH]; intros data q; cbn [fold_left].
  - simpl. tauto.
  - pose proof (handle_event_quit key_to_note data q event) as Hq.
    destruct (handle_event key_to_note (data, q) event) as [data1 q1].
    cbn [snd] in Hq. rewrite IH, Hq. cbn [In].
    destruct event;
      (split; [intros [H | H]; auto | intros [H | [H | H]]; auto; discriminate]).
Qed.

Lemma handle_events_clock (key_to_note : KeyMap) (events : list SDL_Event) :
  forall (data : AudioCustomData) (q : bool),
    sample_nr (fst (fold_left (handle_event key_to_note) events (data, q)))
    = sample_nr data.
Proof.
  induction events as [| event events IH]; intros data q; cbn [fold_left].
  - reflexivity.
  - pose proof (handle_event_effect key_to_note data q event) as (Hc & _).
    destruct (handle_event key_to_note (data, q) event) as [data1 q1].
    cbn [fst] in Hc. rewrite IH. exact Hc.
Qed.

(** After a turn of the main loop every note left in the registry is
    active, the clock is where it was, and [quit] is set exactly when it
    was set before or an [SDL_QUIT] was among the events, wherever in the
    batch: the events behind it are still handled. *)
Theorem turn_leaves_active_notes_only
    (key_to_note : KeyMap) (events : list SDL_Event)
    (data : AudioCustomData) (q : bool) :
  let st' := main_iteration key_to_note events (data, q) in
  Forall (fun m => active m = true) (notes (fst st')) /\
  sample_nr (fst st') = sample_nr data /\
  (snd st' = true <-> q = true \/ In SDL_QUIT events) /\
  notes (fst st')
  = filter active
      (notes (fst (fold_left (handle_event key_to_note) events (data, q)))).
Proof.
  cbv zeta. unfold main_iteration.
  pose proof (handle_events_clock key_to_note events data q) as Hclock.
  pose proof (handle_events_quit key_to_note events data q) as Hquit.
  destruct (fold_left (handle_event key_to_note) events (data, q)) as [d1 q1].
  cbn [fst snd notes sample_nr] in *.
  assert (Hfilter : remove_inactive (notes d1) = filter active (notes d1)).
  { unfold remove_inactive. apply filter_ext. intros m. apply negb_involutive. }
  rewrite Hfilter.
  split; [| split; [exact Hclock | split; [exact Hquit | reflexivity]]].
  apply Forall_forall. intros m Hm. apply filter_In in Hm. tauto.
Qed.

Lemma release_notes_app (note_id : Z) (sound_time : float) (xs ys : list Note) :
  release_notes note_id sound_time (xs ++ ys)
  = release_notes note_id sound_time xs ++ release_notes note_id sound_time ys.
Proof.
  induction xs as [| x xs IH]; simpl; [reflexivity | now rewrite IH].
Qed.

Lemma handle_key_down (key_to_note : KeyMap) (data : AudioCustomData)
    (q : bool) (scancode : SDL_Scancode) (template : Note) :
  map_find key_to_note scancode = Some template ->
  handle_event key_to_note (data, q) (SDL_KEYDOWN scancode false)
  = ({| sample_nr := sample_nr data;
        notes := notes data
                 ++ [set_active (set_timeOn template (sound_time_of data)) true] |},
     q).
Proof. intros H. unfold handle_event. rewrite H. reflexivity. Qed.

Lemma handle_key_up (key_to_note : KeyMap) (data : AudioCustomData)
    (q : bool) (scancode : SDL_Scancode) (found : Note) :
  map_find key_to_note scancode = Some found ->
  handle_event key_to_note (data, q) (SDL_KEYUP scancode)
  = ({| sample_nr := sample_nr data;
        notes := release_notes (id found) (sound_time_of data) (notes data) |},
     q).
Proof. intros H. unfold handle_event. rewrite H. reflexivity. Qed.

(** A mapped key pressed twice and released once within one turn (the
    key map does not know a key is down) leaves two equal notes behind the
    others, both with [timeOn] and [timeOff] at the current time; the
    earlier notes of that id get the same [timeOff]. *)
Theorem double_press_then_release
    (key_to_note : KeyMap) (data : AudioCustomData) (q : bool)
    (scancode : SDL_Scancode) (template : Note) :
  map_find key_to_note scancode = Some template ->
  let now := sound_time_of data in
  let pressed := set_timeOff (set_active (set_timeOn template now) true) now in
  fold_left (handle_event key_to_note)
    [SDL_KEYDOWN scancode false; SDL_KEYDOWN scancode false; SDL_KEYUP scancode]
    (data, q)
  = ({| sample_nr := sample_nr data;
        notes := release_notes (id template) now (notes data)
                 ++ [pressed; pressed] |}, q).
Proof.
  intros Hfind. cbv zeta. cbn [fold_left].
  rewrite (handle_key_down _ _ _ _ _ Hfind), (handle_key_down _ _ _ _ _ Hfind),
    (handle_key_up _ _ _ _ _ Hfind).
  unfold sound_time_of. cbn [sample_nr notes]. f_equal. f_equal.
  rewrite <- app_assoc. rewrite release_notes_app.
  cbn [app release_notes set_active set_timeOn id].
  rewrite Z.eqb_refl. reflexivity.
Qed.

Lemma double_press_then_release_witness :
  map_find [(SDL_SCANCODE_Z, quiet_note)] SDL_SCANCODE_Z = Some quiet_note /\
  let now := sound_time_of quiet_pair in
  let pressed := set_timeOff (set_active (set_timeOn quiet_note now) true) now in
  fold_left (handle_event [(SDL_SCANCODE_Z, quiet_note)])
    [SDL_KEYDOWN SDL_SCANCODE_Z false; SDL_KEYDOWN SDL_SCANCODE_Z false;
     SDL_KEYUP SDL_SCANCODE_Z]
    (quiet_pair, false)
  = ({| sample_nr := sample_nr quiet_pair;
        notes := release_notes (id quiet_note) now (notes quiet_pair)
                 ++ [pressed; pressed] |}, false).
Proof.
  assert (F : map_find [(SDL_SCANCODE_Z, quiet_note)] SDL_SCANCODE_Z
              = Some quiet_note) by reflexivity.
  exact (conj F (double_press_then_release [(SDL_SCANCODE_Z, quiet_note)]
                   quiet_pair false SDL_SCANCODE_Z quiet_note F)).
Defined.

(** A mapped key pressed and released within one turn leaves a note that
    never sounds: its two times are equal, so for an envelope with positive
    time constants it is not alive at any time. *)
Theorem tap_within_one_turn_never_sounds
    (key_to_note : KeyMap) (data : AudioCustomData) (q : bool)
    (scancode : SDL_Scancode) (template : Note) :
  map_find key_to_note scancode = Some template ->
  positive_times (envelope (instrument template)) ->
  let st' :=
    fold_left (handle_event key_to_note)
      [SDL_KEYDOWN scancode false; SDL_KEYUP scancode] (data, q) in
  exists m : Note,
    notes (fst st')
    = release_notes (id template) (sound_time_of data) (notes data) ++ [m] /\
    timeOn m = timeOff m /\
    forall t : float, envelope_alive m t = false.
Proof.
  intros Hfind Hpos. cbv zeta. cbn [fold_left].
  rewrite (handle_key_down _ _ _ _ _ Hfind), (handle_key_up _ _ _ _ _ Hfind).
  unfold sound_time_of. cbn [fst sample_nr notes].
  rewrite release_notes_app.
  cbn [release_notes set_active set_timeOn id]. rewrite Z.eqb_refl.
  eexists. split; [reflexivity | split; [reflexivity |]].
  intros t. unfold envelope_alive. cbn [set_timeOff instrument timeOn timeOff].
  apply fgt_false.
  rewrite (getAmplitude_equal_times _ t _ _ Hpos (Qeq_refl _)). lra.
Qed.

Lemma tap_within_one_turn_never_sounds_witness :
  map_find [(SDL_SCANCODE_Z, quiet_note)] SDL_SCANCODE_Z = Some quiet_note /\
  positive_times (envelope (instrument quiet_note)) /\
  let st' :=
    fold_left (handle_event [(SDL_SCANCODE_Z, quiet_note)])
      [SDL_KEYDOWN SDL_SCANCODE_Z false; SDL_KEYUP SDL_SCANCODE_Z]
      (quiet_pair, false) in
  exists m : Note,
    notes (fst st')
    = release_notes (id quiet_note) (sound_time_of quiet_pair) (notes quiet_pair)
      ++ [m] /\
    timeOn m = timeOff m /\
    forall t : float, envelope_alive m t = false.
Proof.
  assert (F : map_find [(SDL_SCANCODE_Z, quiet_note)] SDL_SCANCODE_Z
              = Some quiet_note) by reflexivity.
  assert (P : positive_times (envelope (instrument quiet_note)))
    by (unfold positive_times; simpl; repeat split; lra).
  exact (conj F (conj P
           (tap_within_one_turn_never_sounds [(SDL_SCANCODE_Z, quiet_note)]
              quiet_pair false SDL_SCANCODE_Z quiet_note F P))).
Defined.

(** While no note starts after the current time, a key-up leaves no note of
    its id held: each one is released, with [timeOn <= timeOff]. *)
Theorem key_up_leaves_no_note_of_its_id_held
    (key_to_note : KeyMap) (data : AudioCustomData) (q : bool)
    (scancode : SDL_Scancode) (found : Note) :
  map_find key_to_note scancode = Some found ->
  Forall (fun m => timeOn m <= sound_time_of data) (notes data) ->
  Forall (fun m => id m = id found -> released m)
    (notes (fst (handle_event key_to_note (data, q) (SDL_KEYUP scancode)))).
Proof.
  intros Hfind Hpast. rewrite (handle_key_up _ _ _ _ _ Hfind).
  cbn [fst notes].
  induction Hpast as [| m rest Hm Hrest IH]; cbn [release_notes];
    constructor; [| exact IH].
  destruct (id m =? id found)%Z eqn:E.
  - intros _. unfold released. cbn [set_timeOff timeOn timeOff]. exact Hm.
  - intros Hid. apply Z.eqb_neq in E. contradiction.
Qed.

Lemma key_up_leaves_no_note_of_its_id_held_witness :
  map_find [(SDL_SCANCODE_Z, quiet_note)] SDL_SCANCODE_Z = Some quiet_note /\
  Forall (fun m => timeOn m <= sound_time_of quiet_pair) (notes quiet_pair) /\
  Forall (fun m => id m = id quiet_note -> released m)
    (notes (fst (handle_event [(SDL_SCANCODE_Z, quiet_note)] (quiet_pair, false)
                   (SDL_KEYUP SDL_SCANCODE_Z)))).
Proof.
  assert (F : map_find [(SDL_SCANCODE_Z, quiet_note)] SDL_SCANCODE_Z
              = Some quiet_note) by reflexivity.
  assert (P : Forall (fun m => timeOn m <= sound_time_of quiet_pair)
                (notes quiet_pair))
    by (repeat constructor; vm_compute; discriminate).
  exact (conj F (conj P
           (key_up_leaves_no_note_of_its_id_held [(SDL_SCANCODE_Z, quiet_note)]
              quiet_pair false SDL_SCANCODE_Z quiet_note F P))).
Defined.

(** ** Runs of the program *)

Lemma sound_time_monotone (a b : Z) :
  (a <= b)%Z ->
  inject_Z a / inject_Z SAMPLE_RATE <= inject_Z b / inject_Z SAMPLE_RATE.
Proof.
  intros H. unfold Qdiv. apply Qmult_le_compat_r.
  - rewrite <- Zle_Qle. exact H.
  - vm_compute. discriminate.
Qed.

Lemma sound_time_nonneg (data : AudioCustomData) :
  (0 <= sample_nr data)%Z -> 0 <= sound_time_of data.
Proof.
  intros H. unfold sound_time_of.
  pose proof (sound_time_monotone 0 (sample_nr data) H) as Hm.
  assert (Hz : inject_Z 0 / inject_Z SAMPLE_RATE == 0) by reflexivity.
  rewrite Hz in Hm. exact Hm.
Qed.

(** The clock after a call of the audio callback is not before the clock
    at the call, and at most two times the samples asked for after it. *)
Lemma audio_callback_clock_bounds (data : AudioCustomData) (bytes : Z) (n : nat) :
  (0 <= sample_nr data)%Z ->
  (sample_nr data + 2 * Z.max 0 (Z.quot bytes 2) < 2147483648)%Z ->
  (sample_nr data
   <= sample_nr (snd (fst (audio_callback data bytes n)))
   <= sample_nr data + 2 * Z.max 0 (Z.quot bytes 2))%Z.
Proof.
  intros Hlo Hhi. unfold audio_callback, bind.
  assert (Hn : Z.of_nat (Z.to_nat (Z.quot bytes 2)) = Z.max 0 (Z.quot bytes 2))
    by lia.
  pose proof (render_loop_clock (Z.to_nat (Z.quot bytes 2)) data n Hlo) as Hclock.
  rewrite Hn in Hclock. specialize (Hclock ltac:(lia)).
  destruct (render_loop _ data n) as [[buf d] n1]. cbn [fst snd] in *.
  destruct d as [nr ns]. cbn [sample_nr notes] in *.
  destruct ns as [| x xs]; unfold ret; cbn [fst snd sample_nr].
  - rewrite silence_loop_result by lia. cbn [snd sample_nr]. lia.
  - lia.
Qed.

Lemma getAmplitude_le_1 (e : EnvelopeADSR) (t timeOn timeOff : float) :
  positive_times e -> unit_levels e ->
  timeOff < timeOn \/ timeOff <= t ->
  getAmplitude e t timeOn timeOff <= 1.
Proof.
  intros Hpos Hlev Hcase.
  destruct (Qlt_le_dec timeOff timeOn) as [Hheld | Hrel].
  - rewrite getAmplitude_held by assumption.
    apply clampNegative_le; [lra | apply heldFormula_le_1; assumption].
  - destruct Hcase as [Hheld | Hafter]; [lra |].
    pose proof (release_start_in_unit_interval e timeOn timeOff Hpos Hlev Hrel)
      as [H0 H1].
    destruct Hpos as (Ha & Hd & Hr).
    rewrite getAmplitude_released by lra.
    unfold releasedAmplitude. apply clampNegative_le; [lra |].
    assert (Hz : 0 <= (t - timeOff) / releaseTime e)
      by (apply Qle_shift_div_l; lra).
    assert (Hp : 0 <= heldFormula e (timeOff - timeOn)
                       * ((t - timeOff) / releaseTime e))
      by (apply Qmult_le_0_compat; assumption).
    unfold rampToZero.
    generalize dependent (heldFormula e (timeOff - timeOn)). intros R H0 H1.
    generalize ((t - timeOff) / releaseTime e). intros z Hp. lra.
Qed.

(** The templates of a key map made for the bell: [timeOff] 0 and the bell
    as the instrument. *)
Lemma main_key_to_note_templates (L : LibM)
    (scancode : SDL_Scancode) (template : Note) :
  map_find (main_key_to_note L) scancode = Some template ->
  timeOff template = 0.0 /\ instrument template = Bell L.
Proof.
  unfold main_key_to_note. intros Hfind.
  apply initializeKeyMap_find in Hfind. tauto.
Qed.

Section Runs.

Variable L : LibM.
Variable key_to_note : KeyMap.
Hypothesis templates :
  forall (scancode : SDL_Scancode) (template : Note),
    map_find key_to_note scancode = Some template ->
    timeOff template = 0.0 /\ instrument template = Bell L.

Lemma handle_event_keeps_bells_of_the_past
    (data : AudioCustomData) (q : bool) (event : SDL_Event) :
  bells_of_the_past L data ->
  bells_of_the_past L (fst (handle_event key_to_note (data, q) event)).
Proof.
  intros [Hclock Hnotes].
  pose proof (sound_time_nonneg data Hclock) as Hnow.
  destruct event as [| scancode [|] | scancode |];
    try (split; assumption).
  - destruct (map_find key_to_note scancode) as [template |] eqn:Hfind.
    + rewrite (handle_key_down _ _ _ _ _ Hfind). cbn [fst].
      split; [exact Hclock |]. cbn [notes].
      apply Forall_app. split; [exact Hnotes |].
      constructor; [| constructor].
      destruct (templates scancode template Hfind) as [Hoff Hins].
      unfold times_in_the_past, sound_time_of.
      cbn [set_active set_timeOn timeOn timeOff instrument sample_nr].
      fold (sound_time_of data). rewrite Hoff.
      repeat split; try assumption; lra.
    + unfold handle_event. rewrite Hfind. split; assumption.
  - destruct (map_find key_to_note scancode) as [found |] eqn:Hfind.
    + rewrite (handle_key_up _ _ _ _ _ Hfind). cbn [fst].
      split; [exact Hclock |]. cbn [notes].
      induction Hnotes as [| m rest Hm Hrest IH]; cbn [release_notes];
        constructor; [| exact IH].
      destruct Hm as [((Hon0 & Hon1) & (Hoff0 & Hoff1)) Hins].
      unfold times_in_the_past, sound_time_of in *. cbn [sample_nr] in *.
      destruct (id m =? id found)%Z;
        cbn [set_timeOff timeOn timeOff instrument];
        repeat split; try assumption; lra.
    + unfold handle_event. rewrite Hfind. split; assumption.
Qed.

Lemma main_iteration_keeps_bells_of_the_past (events : list SDL_Event) :
  forall (data : AudioCustomData) (q : bool),
    bells_of_the_past L data ->
    bells_of_the_past L (fst (main_iteration key_to_note events (data, q))).
Proof.
  assert (Hfold : forall (data : AudioCustomData) (q : bool),
             bells_of_the_past L data ->
             bells_of_the_past L
               (fst (fold_left (handle_event key_to_note) events (data, q)))).
  { induction events as [| event events IH]; intros data q Hinv;
      cbn [fold_left]; [exact Hinv |].
    pose proof (handle_event_keeps_bells_of_the_past data q event Hinv) as H1.
    destruct (handle_event key_to_note (data, q) event) as [d1 q1].
    apply IH. exact H1. }
  intros data q Hinv. specialize (Hfold data q Hinv). unfold main_iteration.
  destruct (fold_left _ events (data, q)) as [d1 q1]. cbn [fst] in *.
  destruct Hfold as [Hclock Hnotes]. split; [exact Hclock |].
  cbn [notes]. unfold remove_inactive.
  apply Forall_forall. intros m Hm. apply filter_In in Hm.
  rewrite Forall_forall in Hnotes. apply Hnotes. tauto.
Qed.

Lemma later_data_keep_notes_in_the_past
    (data data' : AudioCustomData) (ns : list Note) :
  forall ns' : list Note,
    Forall2 same_but_active ns ns' ->
    sound_time_of data <= sound_time_of data' ->
    Forall (fun m => times_in_the_past data m /\ instrument m = Bell L) ns ->
    Forall (fun m => times_in_the_past data' m /\ instrument m = Bell L) ns'.
Proof.
  induction ns as [| m ms IH]; intros ns' Hsame Hmono Hall;
    inversion Hsame as [| ? m' ? ms' Hm Hms]; subst.
  - constructor.
  - inversion Hall as [| ? ? Hhead Htail]; subst.
    constructor; [| apply IH; assumption].
    destruct Hm as (_ & _ & Hon & Hoff & Hins).
    destruct Hhead as [((Hon0 & Hon1) & (Hoff0 & Hoff1)) Hbell].
    unfold times_in_the_past in *.
    rewrite <- Hon, <- Hoff, <- Hins.
    repeat split; try assumption; lra.
Qed.

Lemma audio_callback_keeps_bells_of_the_past
    (data : AudioCustomData) (bytes : Z) (n : nat) :
  (sample_nr data + 2 * Z.max 0 (Z.quot bytes 2) < 2147483648)%Z ->
  bells_of_the_past L data ->
  bells_of_the_past L (snd (fst (audio_callback data bytes n))).
Proof.
  intros Hhi [Hclock Hnotes].
  pose proof (audio_callback_clock_bounds data bytes n Hclock Hhi) as [Hc1 Hc2].
  pose proof (render_loop_same_notes (Z.to_nat (Z.quot bytes 2)) data n) as Hsame.
  assert (Hnotes' : Forall2 same_but_active (notes data)
                      (notes (snd (fst (audio_callback data bytes n))))).
  { unfold audio_callback, bind.
    destruct (render_loop _ data n) as [[buf d] n1]. cbn [fst snd] in *.
    destruct (notes d) as [| x xs] eqn:Hd; unfold ret; cbn [fst snd].
    - rewrite silence_loop_notes, Hd. exact Hsame.
    - rewrite Hd. exact Hsame. }
  split; [lia |].
  eapply later_data_keep_notes_in_the_past; [exact Hnotes' | | exact Hnotes].
  unfold sound_time_of. apply sound_time_monotone. exact Hc1.
Qed.

Lemma run_steps_keep_bells_of_the_past (steps : list Step) :
  forall r : Run,
    (sample_nr (custom_data r) + 2 * samples_asked steps < 2147483648)%Z ->
    bells_of_the_past L (custom_data r) ->
    bells_of_the_past L (custom_data (run_steps key_to_note steps r)) /\
    (sample_nr (custom_data (run_steps key_to_note steps r))
     <= sample_nr (custom_data r) + 2 * samples_asked steps)%Z.
Proof.
  unfold run_steps.
  induction steps as [| step steps IH]; intros r Hhi Hinv; cbn [fold_left].
  - split; [exact Hinv | simpl; lia].
  - assert (Hrest : (0 <= samples_asked steps)%Z).
    { clear. induction steps as [| [ev | b] steps IH]; simpl; lia. }
    assert (Hstep : bells_of_the_past L
                      (custom_data (run_step key_to_note r step)) /\
                    (sample_nr (custom_data (run_step key_to_note r step))
                     + 2 * samples_asked steps
                     <= sample_nr (custom_data r)
                        + 2 * samples_asked (step :: steps))%Z).
    { unfold run_step. destruct (quit r) eqn:Hq.
      - split; [exact Hinv |]. destruct step; cbn [samples_asked]; lia.
      - destruct step as [events | bytes].
        + pose proof (main_iteration_keeps_bells_of_the_past events
                        (custom_data r) false Hinv) as H1.
          pose proof (handle_events_clock key_to_note events
                        (custom_data r) false) as Hc.
          unfold main_iteration in *.
          destruct (fold_left _ events (custom_data r, false)) as [d1 q1].
          cbn [fst custom_data sample_nr samples_asked] in *.
          split; [exact H1 | lia].
        + cbn [samples_asked] in Hhi.
          pose proof (audio_callback_keeps_bells_of_the_past (custom_data r)
                        bytes (rand_calls r) ltac:(lia) Hinv) as H1.
          pose proof (audio_callback_clock_bounds (custom_data r) bytes
                        (rand_calls r) (proj1 Hinv) ltac:(lia)) as [_ Hc].
          destruct (audio_callback (custom_data r) bytes (rand_calls r))
            as [out n1].
          cbn [fst snd custom_data samples_asked] in *.
          split; [exact H1 | lia]. }
    destruct Hstep as [Hinv1 Hc1].
    destruct (IH (run_step key_to_note r step) ltac:(lia) Hinv1) as [Hinv2 Hc2].
    split; [exact Hinv2 | lia].
Qed.

End Runs.

Lemma Run_start_bells_of_the_past (L : LibM) :
  bells_of_the_past L (custom_data Run_start).
Proof. split; [simpl; lia | constructor]. Qed.

Lemma Bell_envelope_unit_levels : unit_levels Bell_envelope.
Proof. unfold unit_levels; simpl; repeat split; lra. Qed.

(** All along a run of [main], as long as the clock does not overflow (it
    advances by at most two times the samples asked for), the clock is not
    negative and every note of the registry is a note of the bell whose
    [timeOn] and [timeOff] are between 0 and the current time: the audio
    callback never computes an envelope before the start or before the
    release of a note. *)
Theorem notes_of_a_run_lie_in_the_past (L : LibM) (steps : list Step) :
  (2 * samples_asked steps < 2147483648)%Z ->
  let data := custom_data (main_run L steps) in
  (0 <= sample_nr data <= 2 * samples_asked steps)%Z /\
  Forall (fun m => times_in_the_past data m /\ instrument m = Bell L)
    (notes data).
Proof.
  intros Hhi. cbv zeta. unfold main_run.
  destruct (run_steps_keep_bells_of_the_past L (main_key_to_note L)
              (main_key_to_note_templates L) steps Run_start)
    as [[Hclock Hnotes] Hbound].
  - change (sample_nr (custom_data Run_start)) with 0%Z. lia.
  - apply Run_start_bells_of_the_past.
  - change (sample_nr (custom_data Run_start)) with 0%Z in Hbound.
    split; [lia | exact Hnotes].
Qed.

Lemma notes_of_a_run_lie_in_the_past_witness :
  (2 * samples_asked retrigger_steps < 2147483648)%Z /\
  let data := custom_data (main_run toy_libm retrigger_steps) in
  (0 <= sample_nr data <= 2 * samples_asked retrigger_steps)%Z /\
  Forall (fun m => times_in_the_past data m /\ instrument m = Bell toy_libm)
    (notes data).
Proof.
  assert (H : (2 * samples_asked retrigger_steps < 2147483648)%Z)
    by (vm_compute; reflexivity).
  exact (conj H (notes_of_a_run_lie_in_the_past toy_libm retrigger_steps H)).
Defined.

(** All along a run of [main] whose clock does not overflow, the envelope
    of every note of the registry is within [0,1] at the current time and
    at every later time: the amplitudes above 1 that [getAmplitude] gives
    before the release time of a note are never computed. *)
Theorem amplitudes_of_a_run_lie_in_unit_interval
    (L : LibM) (steps : list Step) :
  (2 * samples_asked steps < 2147483648)%Z ->
  let data := custom_data (main_run L steps) in
  Forall (fun m =>
            forall t : float,
              sound_time_of data <= t ->
              0 <= getAmplitude (envelope (instrument m)) t (timeOn m) (timeOff m)
                <= 1)
    (notes data).
Proof.
  intros Hhi. cbv zeta. unfold main_run.
  destruct (run_steps_keep_bells_of_the_past L (main_key_to_note L)
              (main_key_to_note_templates L) steps Run_start)
    as [[Hclock Hnotes] _].
  - change (sample_nr (custom_data Run_start)) with 0%Z. lia.
  - apply Run_start_bells_of_the_past.
  - eapply Forall_impl; [| exact Hnotes].
    intros m [[_ [_ Hoff]] Hins] t Ht. rewrite Hins. cbn [envelope Bell].
    split; [apply getAmplitude_nonneg |].
    apply getAmplitude_le_1;
      [apply Bell_envelope_positive_times | apply Bell_envelope_unit_levels |].
    right. lra.
Qed.

Lemma amplitudes_of_a_run_lie_in_unit_interval_witness :
  (2 * samples_asked retrigger_steps < 2147483648)%Z /\
  let data := custom_data (main_run toy_libm retrigger_steps) in
  Forall (fun m =>
            forall t : float,
              sound_time_of data <= t ->
              0 <= getAmplitude (envelope (instrument m)) t (timeOn m) (timeOff m)
                <= 1)
    (notes data).
Proof.
  assert (H : (2 * samples_asked retrigger_steps < 2147483648)%Z)
    by (vm_compute; reflexivity).
  exact (conj H
           (amplitudes_of_a_run_lie_in_unit_interval toy_libm retrigger_steps H)).
Defined.
